(** * pkg/bpf/map.go: map types, kernel feature probes and map-type fallback

    A shallow embedding of the BPF map-type capability layer of
    [pkg/bpf/map.go]: the [MapType] enumeration with its per-type facts
    ([String], [allowsPreallocation], [requiresPreallocation],
    [mapTypeToFeatureString]), the feature prober [ReadFeatureProbes] that
    fills the package-level table [supportedMapTypes], and the fallback
    resolution [GetMapType] that reads it.

    Go's [int] is embedded as [Z]; every constant of the file fits in 64
    bits and the only arithmetic is the loop increment between [MapTypeHash]
    and [MapTypeMaximum], so no wrap-around arises.  Go strings and byte
    slices are sequences of 8-bit bytes and are embedded as [string].  The
    package-level [map[MapType]bool] is a [gmap Z bool] passed explicitly.

    The last part models the reconciliation engine around [maxSyncErrors]
    from the specification, since its code is not in [map.go]. *)

From Stdlib Require Import ZArith String Ascii List Lia.
From stdpp Require Import gmap strings list list_numbers fin_maps.

Local Open Scope string_scope.
Local Open Scope Z_scope.

(** ** The MapType enumeration (map.go:30-55) *)

(** [type MapType int] *)
Abbreviation MapType := Z (only parsing).

Definition MapTypeUnspec : MapType := 0.
Definition MapTypeHash : MapType := 1.
Definition MapTypeArray : MapType := 2.
Definition MapTypeProgArray : MapType := 3.
Definition MapTypePerfEventArray : MapType := 4.
Definition MapTypePerCPUHash : MapType := 5.
Definition MapTypePerCPUArray : MapType := 6.
Definition MapTypeStackTrace : MapType := 7.
Definition MapTypeCgroupArray : MapType := 8.
Definition MapTypeLRUHash : MapType := 9.
Definition MapTypeLRUPerCPUHash : MapType := 10.
Definition MapTypeLPMTrie : MapType := 11.
Definition MapTypeArrayOfMaps : MapType := 12.
Definition MapTypeHashOfMaps : MapType := 13.
Definition MapTypeDevMap : MapType := 14.
Definition MapTypeSockMap : MapType := 15.
Definition MapTypeCPUMap : MapType := 16.
Definition MapTypeXSKMap : MapType := 17.
Definition MapTypeSockHash : MapType := 18.
(** [MapTypeMaximum] is the maximum supported known map type. *)
Definition MapTypeMaximum : MapType := 19.

(** [maxSyncErrors] is the maximum consecutive errors syncing before the
    controller bails out (map.go:57-59). *)
Definition maxSyncErrors : Z := 512.

(** The values the [const] block names as map types: [MapTypeUnspec] up to
    [MapTypeSockHash]; [MapTypeMaximum] is the bound, not a type. *)
Definition inEnumeration (t : MapType) : Prop :=
  MapTypeUnspec <= t < MapTypeMaximum.

(** ** Per-type facts (map.go:80-134) *)

(** [func (t MapType) String() string]: a [switch] whose cases return, and a
    final [return "Unknown"].  (The method is named [MapType_String] here:
    [String] is the constructor of [string].) *)
Definition MapType_String (t : MapType) : string :=
  if t =? MapTypeHash then "Hash"
  else if t =? MapTypeArray then "Array"
  else if t =? MapTypeProgArray then "Program array"
  else if t =? MapTypePerfEventArray then "Event array"
  else if t =? MapTypePerCPUHash then "Per-CPU hash"
  else if t =? MapTypePerCPUArray then "Per-CPU array"
  else if t =? MapTypeStackTrace then "Stack trace"
  else if t =? MapTypeCgroupArray then "Cgroup array"
  else if t =? MapTypeLRUHash then "LRU hash"
  else if t =? MapTypeLRUPerCPUHash then "LRU per-CPU hash"
  else if t =? MapTypeLPMTrie then "Longest prefix match trie"
  else if t =? MapTypeArrayOfMaps then "Array of maps"
  else if t =? MapTypeHashOfMaps then "Hash of maps"
  else if t =? MapTypeDevMap then "Device Map"
  else if t =? MapTypeSockMap then "Socket Map"
  else if t =? MapTypeCPUMap then "CPU Redirect Map"
  else if t =? MapTypeSockHash then "Socket Hash"
  else "Unknown".

(** [func (t MapType) allowsPreallocation() bool] *)
Definition allowsPreallocation (t : MapType) : bool :=
  if t =? MapTypeLPMTrie then false else true.

(** [func (t MapType) requiresPreallocation() bool] *)
Definition requiresPreallocation (t : MapType) : bool :=
  if (t =? MapTypeHash) || (t =? MapTypePerCPUHash)
     || (t =? MapTypeLPMTrie) || (t =? MapTypeHashOfMaps)
  then false
  else true.

(** [func mapTypeToFeatureString(mt MapType) string]: [featureString] starts
    as the zero value [""] and only two cases assign it; [fmt.Sprintf] of a
    format without verbs is the format itself. *)
Definition mapTypeToFeatureString (mt : MapType) : string :=
  if mt =? MapTypeLPMTrie then "#define HAVE_LPM_MAP_TYPE"
  else if mt =? MapTypeLRUHash then "#define HAVE_LRU_MAP_TYPE"
  else "".

(** ** The support table (map.go:72-78) *)

(** [supportedMapTypes = make(map[MapType]bool)]: the table the process
    starts with. *)
Definition supportedMapTypes_init : gmap Z bool := ∅.

(** A Go map read [m[k]] of a [map[MapType]bool]: the zero value [false]
    when [k] has no entry. *)
Definition mapIndex (m : gmap Z bool) (k : MapType) : bool :=
  default false (m !! k).

(** ** GetMapType (map.go:216-226) *)

(** The [switch] has the cases [MapTypeLPMTrie] (falling through) and
    [MapTypeLRUHash], whose body returns [MapTypeHash] when the table read
    is [false]; every other path reaches [return t]. *)
Definition GetMapType (supportedMapTypes : gmap Z bool) (t : MapType) : MapType :=
  if (t =? MapTypeLPMTrie) || (t =? MapTypeLRUHash) then
    if negb (mapIndex supportedMapTypes t) then MapTypeHash else t
  else t.

(** ** The line scanner (Go standard library, as used at map.go:190-191)

    [bufio.NewScanner(f)] with its defaults: the split function
    [bufio.ScanLines] and a token buffer of at most [bufio.MaxScanTokenSize]
    bytes.  [Scanner_tokens data] is the sequence of values [scanner.Bytes()]
    takes over the successful calls of [scanner.Scan()] on a file whose
    contents are [data]. *)

Definition LF : ascii := "010"%char.
Definition CR : ascii := "013"%char.
Definition MaxScanTokenSize : Z := 64 * 1024.

(** [bufio.dropCR]: drops one trailing carriage return. *)
Fixpoint dropCR (data : string) : string :=
  match data with
  | EmptyString => EmptyString
  | String c EmptyString => if Ascii.eqb c CR then EmptyString else data
  | String c rest => String c (dropCR rest)
  end.

(** The lines of [data], each without its terminating newline; [line] holds
    the bytes of the line being read.  At the end of the data a last line
    that has no newline is delivered when it is not empty. *)
Fixpoint rawLines (line data : string) : list string :=
  match data with
  | EmptyString => if decide (line = EmptyString) then [] else [line]
  | String c data' =>
      if Ascii.eqb c LF then line :: rawLines EmptyString data'
      else rawLines (line ++ String c EmptyString) data'
  end.

(** [Scan] gives up ([ErrTooLong], after which it returns false for good)
    at the first line that does not fit the buffer together with its
    newline. *)
Fixpoint fitting (lines : list string) : list string :=
  match lines with
  | [] => []
  | l :: rest =>
      if Z.of_nat (String.length l) <? MaxScanTokenSize then l :: fitting rest
      else []
  end.

Definition Scanner_tokens (data : string) : list string :=
  dropCR <$> fitting (rawLines EmptyString data).

(** [bytes.Compare]: lexicographic comparison of byte strings, as -1, 0, 1. *)
Definition bytes_Compare (a b : string) : Z :=
  match String.compare a b with
  | Eq => 0
  | Lt => -1
  | Gt => 1
  end.

(** ** ReadFeatureProbes (map.go:181-210) *)

(** The values [mapType] takes in
    [for mapType := MapTypeHash; mapType < MapTypeMaximum; mapType++]. *)
Definition mapTypeRange : list MapType :=
  seqZ MapTypeHash (MapTypeMaximum - MapTypeHash).

(** Body of the inner loop of the scan (map.go:193-198), for the scanner
    token [line]. *)
Definition probeLine (line : string) (tbl : gmap Z bool) (mapType : MapType)
  : gmap Z bool :=
  let featureString := mapTypeToFeatureString mapType in
  if negb (featureString =? "")%string
     && (bytes_Compare line featureString =? 0)
  then <[mapType := true]> tbl
  else tbl.

(** The scan loop (map.go:191-200) over the scanner's tokens. *)
Definition scanLoop (lines : list string) (tbl : gmap Z bool) : gmap Z bool :=
  foldl (fun tbl line => foldl (probeLine line) tbl mapTypeRange) tbl lines.

(** Body of the second loop (map.go:203-208): [_, probed :=
    supportedMapTypes[mapType]] tests the presence of an entry. *)
Definition markUnprobed (tbl : gmap Z bool) (mapType : MapType) : gmap Z bool :=
  if (mapTypeToFeatureString mapType =? "")%string then tbl
  else match tbl !! mapType with
       | Some _ => tbl
       | None => <[mapType := false]> tbl
       end.

(** [ReadFeatureProbes]: [file] is the outcome of [os.Open(filename)], the
    contents of the file or [None] when it cannot be opened; [tbl] is
    [supportedMapTypes] at the call.  [None] is the [Fatal] log call, which
    ends the process; otherwise the result is [supportedMapTypes] at the
    return. *)
Definition ReadFeatureProbes (file : option string) (tbl : gmap Z bool)
  : option (gmap Z bool) :=
  match file with
  | None => None
  | Some data =>
      Some (foldl markUnprobed (scanLoop (Scanner_tokens data) tbl) mapTypeRange)
  end.

(** Reading of the table as the spec's tri-state. *)
Definition supported (tbl : gmap Z bool) (k : MapType) : Prop := tbl !! k = Some true.
Definition unsupported (tbl : gmap Z bool) (k : MapType) : Prop := tbl !! k = Some false.
Definition notProbed (tbl : gmap Z bool) (k : MapType) : Prop := tbl !! k = None.

(** A probed kind is one that has a feature-flag token. *)
Definition probedKind (k : MapType) : Prop := mapTypeToFeatureString k ≠ "".

#[global] Instance supported_dec tbl k : Decision (supported tbl k).
Proof. unfold supported. apply _. Defined.
#[global] Instance unsupported_dec tbl k : Decision (unsupported tbl k).
Proof. unfold unsupported. apply _. Defined.
#[global] Instance notProbed_dec tbl k : Decision (notProbed tbl k).
Proof. unfold notProbed. apply _. Defined.
#[global] Instance probedKind_dec k : Decision (probedKind k).
Proof. unfold probedKind. apply _. Defined.

(** The scanner token [line] is the feature string of [k]. *)
Definition matches (line : string) (k : MapType) : Prop :=
  probedKind k ∧ line = mapTypeToFeatureString k.

(** What [ReadFeatureProbes] leaves at each key of the table. *)
Definition probedEntry (data : string) (tbl : gmap Z bool) (k : MapType)
  : option bool :=
  if decide (probedKind k) then
    if decide (mapTypeToFeatureString k ∈ Scanner_tokens data) then Some true
    else Some (default false (tbl !! k))
  else tbl !! k.





(** * The reconciliation engine

    [map.go] declares [DesiredAction] and the ceiling [maxSyncErrors]; the
    controller that consumes them lives outside [map.go], and its behaviour
    is taken here from the specification (sections 3, 4.3 and 4.4). *)

(** [type DesiredAction int] with the constants [OK], [Insert], [Delete]
    (map.go:136-149). *)
Inductive DesiredAction : Set := OK | Insert | Delete.

#[global] Instance DesiredAction_eq_dec : EqDecision DesiredAction.
Proof. solve_decision. Defined.

Module Reconciler.

(** Modelled from the spec: the kernel map operations of section 6,
    [write(mapHandle, key, value)] and [delete(mapHandle, key)], reduced to
    whether the call succeeds.  One [Kernel] answers for one pass. *)
Record Kernel : Type := {
  kwrite : string → string → bool;
  kdelete : string → bool
}.

(** Modelled from the spec: the states of section 4.4. *)
Inductive Phase : Set := Idle | Scheduled | Running | Failed.

#[global] Instance Phase_eq_dec : EqDecision Phase.
Proof. solve_decision. Defined.

(** Modelled from the spec: a MapEntry of section 3 without its key, which
    is the key of the cache. *)
Record MapEntry : Set := {
  value : string;
  action : DesiredAction
}.

(** Modelled from the spec: the MapState of section 3; the "failed" flag
    is the phase [Failed]. *)
Record MapState : Type := {
  kind : MapType;
  cache : gmap string MapEntry;
  errors : Z;
  phase : Phase
}.

(** Modelled from the spec: [Register] of section 4.3 for one map, the
    kind resolved by [GetMapType] against the table at that moment. *)
Definition Register (tbl : gmap Z bool) (requestedKind : MapType) : MapState :=
  {| kind := GetMapType tbl requestedKind;
     cache := ∅;
     errors := 0;
     phase := Idle |}.

(** Modelled from the spec: [SetDesired] of sections 4.3 and 4.4, an
    upsert that moves [Idle] to [Scheduled] and is absorbed in every other
    phase; [Delete] clears the stored value. *)
Definition SetDesired (key : string) (a : DesiredAction) (v : string)
    (m : MapState) : MapState :=
  {| kind := kind m;
     cache := <[key := {| value := match a with Delete => "" | _ => v end;
                          action := a |}]> (cache m);
     errors := errors m;
     phase := match phase m with Idle => Scheduled | p => p end |}.

(** Modelled from the spec: the explicit external reset of section 4.4,
    which clears the counter and the entry cache. *)
Definition reset (m : MapState) : MapState :=
  {| kind := kind m; cache := ∅; errors := 0; phase := Idle |}.

(** Modelled from the spec: what one pass does to one entry (section 4.4).
    [attempt] is the outcome of the kernel call, [None] for an entry that
    is skipped; [afterAttempt] is the entry the pass leaves, [None] for an
    entry removed from the cache. *)
Definition attempt (K : Kernel) (key : string) (e : MapEntry) : option bool :=
  match action e with
  | OK => None
  | Insert => Some (kwrite K key (value e))
  | Delete => Some (kdelete K key)
  end.

Definition afterAttempt (K : Kernel) (key : string) (e : MapEntry)
  : option MapEntry :=
  match attempt K key e with
  | None | Some false => Some e
  | Some true =>
      match action e with
      | Delete => None
      | _ => Some {| value := value e; action := OK |}
      end
  end.

Definition pending (ke : string * MapEntry) : Prop := action ke.2 ≠ OK.
Definition fails (K : Kernel) (ke : string * MapEntry) : Prop :=
  attempt K ke.1 ke.2 = Some false.

#[global] Instance pending_dec ke : Decision (pending ke).
Proof. unfold pending. apply _. Defined.
#[global] Instance fails_dec K ke : Decision (fails K ke).
Proof. unfold fails. apply _. Defined.

(** Kernel calls a pass makes, and how many of them fail. *)
Definition pendingCount (c : gmap string MapEntry) : Z :=
  Z.of_nat (size (filter pending c)).
Definition failures (K : Kernel) (c : gmap string MapEntry) : Z :=
  Z.of_nat (size (filter (fails K) c)).

(** Modelled from the spec: the timer firing takes [Scheduled] to
    [Running]. *)
Definition startPass (m : MapState) : MapState :=
  {| kind := kind m; cache := cache m; errors := errors m; phase := Running |}.

(** Modelled from the spec: one reconciliation pass and the transition
    after it (sections 3 and 4.4).  The counter goes up by one per failed
    entry and is reset to zero by a pass without failure; the map then is
    [Idle] when the counter is zero, [Scheduled] again when it is at most
    [maxSyncErrors], [Failed] when it exceeds it. *)
Definition finishPass (K : Kernel) (m : MapState) : MapState :=
  let n := failures K (cache m) in
  let errors' := if n =? 0 then 0 else errors m + n in
  {| kind := kind m;
     cache := map_imap (afterAttempt K) (cache m);
     errors := errors';
     phase := if errors' =? 0 then Idle
              else if errors' <=? maxSyncErrors then Scheduled
              else Failed |}.

(** Modelled from the spec: the timer of a map fires.  A pass runs only
    from [Scheduled]; a map that is [Failed] (or has no timer armed) skips
    it.  The second component counts the kernel calls made. *)
Definition timerFire (K : Kernel) (m : MapState) : MapState * Z :=
  match phase m with
  | Scheduled => (finishPass K (startPass m), pendingCount (cache m))
  | _ => (m, 0)
  end.

(** What happens to a map, other than the explicit reset. *)
Inductive Op : Type :=
| OpSetDesired (key : string) (a : DesiredAction) (v : string)
| OpTimer (K : Kernel).

Definition step (st : MapState * Z) (op : Op) : MapState * Z :=
  match op with
  | OpSetDesired key a v => (SetDesired key a v st.1, st.2)
  | OpTimer K => let r := timerFire K st.1 in (r.1, st.2 + r.2)
  end.

(** The map after the operations [ops], with the kernel calls made. *)
Definition run (ops : list Op) (m : MapState) : MapState * Z :=
  foldl step (m, 0) ops.

(** A kernel on which every call fails, and one on which every call
    succeeds. *)
Definition failing : Kernel := {| kwrite := λ _ _, false; kdelete := λ _, false |}.
Definition working : Kernel := {| kwrite := λ _ _, true; kdelete := λ _, true |}.

(** The counter exceeds the ceiling exactly in the phase [Failed], and is
    never negative. *)
Definition ceilingInv (m : MapState) : Prop :=
  (phase m = Failed ↔ maxSyncErrors < errors m) ∧ 0 ≤ errors m.

End Reconciler.

(** * More of pkg/bpf/map.go *)

(** [DesiredAction] as the Go [int] it is: [OK], [Insert], [Delete] are the
    [iota] values 0, 1, 2 (map.go:139-149). *)
Definition DesiredAction_code (d : DesiredAction) : Z :=
  match d with
  | OK => 0
  | Insert => 1
  | Delete => 2
  end.

(** [func (d DesiredAction) String() string] (map.go:151-162), over every
    value of the underlying [int]. *)
Definition DesiredAction_String (d : Z) : string :=
  if d =? DesiredAction_code OK then "sync"
  else if d =? DesiredAction_code Insert then "to-be-inserted"
  else if d =? DesiredAction_code Delete then "to-be-deleted"
  else "unknown".

(** A text file: the lines [ls], each followed by the terminator [term]. *)
Definition fileOfLines (term : string) (ls : list string) : string :=
  foldr (λ l rest, l ++ term ++ rest)%string EmptyString ls.

(** The byte [c] does not occur in [s]. *)
Fixpoint byteFree (c : ascii) (s : string) : Prop :=
  match s with
  | EmptyString => True
  | String c' s' => c' ≠ c ∧ byteFree c s'
  end.

(** A line of a text file as a probe generator writes it: no newline or
    carriage return inside, and short enough for the scanner also with a
    carriage return added. *)
Definition plainLine (l : string) : Prop :=
  byteFree LF l ∧ byteFree CR l
  ∧ Z.of_nat (String.length l) < MaxScanTokenSize - 1.

(** * cmd: the [encrypt status] command

    The second Go file, [package cmd], prints the encryption state.  Its
    parts with a computation of their own are embedded here:
    [extractMaxSequenceNumber] and [maxSequenceNumber], [getXfrmStats],
    [isDecryptionInterface] and [getDecryptionInterfaces].  What they get
    from outside the file (the output of the [ip] command, procfs, netlink)
    is passed in.  [Fatalf] prints its message and ends the process; a
    function that may call it returns an [outcome]. *)

Module EncryptStatus.

(** The calls of [Fatalf] in the embedded functions, with the argument that
    tells them apart. *)
Inductive fatal : Type :=
| CannotGetProcFS
| FailedReadXfrmStats
| FailedParseSequenceNumber (digits : string)
| CannotGetXfrmStates
| FailedListInterfaces
| FailedListBPFPrograms (linkName : string).

Inductive outcome (A : Type) : Type :=
| Return (a : A)
| Fatal (f : fatal).
Arguments Return {A} a.
Arguments Fatal {A} f.

(** The value returned, if the function returns. *)
Definition returned {A} (o : outcome A) : option A :=
  match o with
  | Return a => Some a
  | Fatal _ => None
  end.

(** ** The regular expression (lines 30-33)

    [regex = regexp.MustCompile("oseq[[:blank:]]0[xX]([[:xdigit:]]+)")].
    The pattern is ASCII, so matching it on the bytes of a line is matching
    it on the line. *)

Definition byteCode (c : ascii) : Z := Z.of_N (N_of_ascii c).

(** The class [[:blank:]]: space and horizontal tab. *)
Definition isBlank (c : ascii) : bool :=
  (byteCode c =? 32) || (byteCode c =? 9).

(** The class [[:xdigit:]]: [0-9A-Fa-f]. *)
Definition isXDigit (c : ascii) : bool :=
  ((48 <=? byteCode c) && (byteCode c <=? 57))
  || ((65 <=? byteCode c) && (byteCode c <=? 70))
  || ((97 <=? byteCode c) && (byteCode c <=? 102)).

(** The longest run of hexadecimal digits at the start of [s]: what the
    greedy [[[:xdigit:]]+] takes, the rest of the pattern being empty. *)
Fixpoint xdigitRun (s : string) : string :=
  match s with
  | EmptyString => EmptyString
  | String c rest => if isXDigit c then String c (xdigitRun rest) else EmptyString
  end.

(** A match of the pattern that starts at the first byte of [s]: the text
    of its one capture group. *)
Definition matchHere (s : string) : option string :=
  match s with
  | String c1 (String c2 (String c3 (String c4 (String b (String z (String x rest)))))) =>
      if (byteCode c1 =? 111) && (byteCode c2 =? 115) && (byteCode c3 =? 101)
         && (byteCode c4 =? 113) && isBlank b && (byteCode z =? 48)
         && ((byteCode x =? 120) || (byteCode x =? 88))
      then match xdigitRun rest with
           | EmptyString => None
           | digits => Some digits
           end
      else None
  | _ => None
  end.

(** [line[matched[2]:matched[3]]] for [matched :=
    regex.FindStringSubmatchIndex(line)]: the capture group of the leftmost
    match, [None] when [matched] is [nil]. *)
Fixpoint FindStringSubmatch1 (line : string) : option string :=
  match matchHere line with
  | Some digits => Some digits
  | None =>
      match line with
      | EmptyString => None
      | String _ rest => FindStringSubmatch1 rest
      end
  end.

(** ** strconv.ParseInt(s, 16, 64) (Go standard library) *)

(** The value of a base-16 digit, as [strconv.ParseUint] reads it. *)
Definition hexDigitValue (c : ascii) : option Z :=
  let n := byteCode c in
  if (48 <=? n) && (n <=? 57) then Some (n - 48)
  else if (97 <=? n) && (n <=? 102) then Some (n - 97 + 10)
  else if (65 <=? n) && (n <=? 70) then Some (n - 65 + 10)
  else None.

(** The digits of [s] read in base 16 after [acc]; [None] at a byte that is
    no digit. *)
Fixpoint hexValueFrom (acc : Z) (s : string) : option Z :=
  match s with
  | EmptyString => Some acc
  | String c rest =>
      match hexDigitValue c with
      | Some d => hexValueFrom (acc * 16 + d) rest
      | None => None
      end
  end.

(** The unsigned part: [ParseUint] followed by the range check of
    [ParseInt] for 64 bits.  [None] is a non-nil [err] (syntax or range). *)
Definition parseMagnitude (neg : bool) (s : string) : option Z :=
  match s with
  | EmptyString => None
  | _ =>
      match hexValueFrom 0 s with
      | None => None
      | Some un =>
          if neg then (if un <=? 2 ^ 63 then Some (- un) else None)
          else (if un <? 2 ^ 63 then Some un else None)
      end
  end.

Definition ParseInt_16_64 (s : string) : option Z :=
  match s with
  | EmptyString => None
  | String c rest =>
      if byteCode c =? 43 then parseMagnitude false rest
      else if byteCode c =? 45 then parseMagnitude true rest
      else parseMagnitude false s
  end.

(** ** extractMaxSequenceNumber (lines 76-93) *)

(** [strings.Split(s, "\n")]: the pieces between the newlines, one more
    than there are newlines; [piece] holds the bytes of the piece being
    read. *)
Fixpoint strings_Split_LF (piece s : string) : list string :=
  match s with
  | EmptyString => [piece]
  | String c rest =>
      if Ascii.eqb c LF then piece :: strings_Split_LF EmptyString rest
      else strings_Split_LF (piece ++ String c EmptyString) rest
  end.

(** The [for _, line := range lines] loop, from the value [maxSeqNum] has
    when it reaches [lines]. *)
Fixpoint maxSeqLoop (maxSeqNum : Z) (lines : list string) : outcome Z :=
  match lines with
  | [] => Return maxSeqNum
  | line :: rest =>
      match FindStringSubmatch1 line with
      | None => maxSeqLoop maxSeqNum rest
      | Some digits =>
          match ParseInt_16_64 digits with
          | None => Fatal (FailedParseSequenceNumber digits)
          | Some oseq =>
              maxSeqLoop (if oseq >? maxSeqNum then oseq else maxSeqNum) rest
          end
      end
  end.

Definition extractMaxSequenceNumber (ipOutput : string) : outcome Z :=
  maxSeqLoop 0 (strings_Split_LF EmptyString ipOutput).

(** ** maxSequenceNumber (lines 95-106) *)

(** A base-16 digit of [%x]. *)
Definition hexDigit (d : Z) : ascii :=
  ascii_of_N (Z.to_N (if d <? 10 then 48 + d else 97 + (d - 10))).

(** The base-16 digits of [n], most significant first, for [n] below
    [16 ^ fuel]. *)
Fixpoint hexDigits (fuel : nat) (n : Z) : string :=
  match fuel with
  | O => EmptyString
  | S fuel' =>
      if n <? 16 then String (hexDigit n) EmptyString
      else (hexDigits fuel' (n / 16) ++ String (hexDigit (n mod 16)) EmptyString)%string
  end.

(** [fmt.Sprintf("%x", v)] for an [int64]: sixteen digits suffice. *)
Definition Sprintf_x (v : Z) : string :=
  if v <? 0 then String "-"%char (hexDigits 16 (- v)) else hexDigits 16 v.

(** [ipXfrm] is the outcome of [exec.Command("ip", "xfrm", "state", "list",
    "reqid", ciliumReqId).Output()]: the output, or [None] for an error. *)
Definition maxSequenceNumber (ipXfrm : option string) : outcome string :=
  match ipXfrm with
  | None => Fatal CannotGetXfrmStates
  | Some commandOutput =>
      match extractMaxSequenceNumber commandOutput with
      | Fatal f => Fatal f
      | Return maxSeqNum =>
          if maxSeqNum =? 0 then Return "N/A"
          else Return ("0x" ++ Sprintf_x maxSeqNum ++ "/0xffffffff")%string
      end
  end.

(** ** getXfrmStats (lines 49-74) *)

(** Go's [int] on a 64-bit platform: the value of [z] after wrap-around. *)
Definition wrap64 (z : Z) : Z := (z + 2 ^ 63) mod 2 ^ 64 - 2 ^ 63.

Definition int64 (z : Z) : Prop := - 2 ^ 63 <= z < 2 ^ 63.

(** What [getXfrmStats] asks of the [procfs] package: the two ways to a file
    system handle and [NewXfrmStat] on one, [None] for an error.  An
    [XfrmStat] is a struct of [int] fields; it is given by its fields in
    order, each with its name and value. *)
Record Procfs (FS : Type) : Type := {
  NewDefaultFS : option FS;
  NewFS : string → option FS;
  NewXfrmStat : FS → option (list (string * Z))
}.
Arguments NewDefaultFS {FS} _.
Arguments NewFS {FS} _ _.
Arguments NewXfrmStat {FS} _ _.

(** Body of the loop over the fields: [st] is [countErrors] with
    [errorMap]. *)
Definition countField (st : Z * gmap string Z) (field : string * Z)
  : Z * gmap string Z :=
  if field.2 =? 0 then st
  else (wrap64 (st.1 + field.2), <[field.1 := field.2]> st.2).

(** [getXfrmStats]: [countErrors] is the package variable at the call.  The
    count returned is also the value the package variable is left with.
    [stats] is a struct value, so the test of its [Kind] holds and the loop
    runs over its fields. *)
Definition getXfrmStats {FS} (procfs : Procfs FS) (mountPoint : string)
    (countErrors : Z) : outcome (Z * gmap string Z) :=
  let fs := if (mountPoint =? "")%string then NewDefaultFS procfs
            else NewFS procfs mountPoint in
  match fs with
  | None => Fatal CannotGetProcFS
  | Some fs =>
      match NewXfrmStat procfs fs with
      | None => Fatal FailedReadXfrmStats
      | Some stats => Return (foldl countField (countErrors, ∅) stats)
      end
  end.

(** ** isDecryptionInterface and getDecryptionInterfaces (lines 126-160) *)

(** A [netlink.Filter]: a [*netlink.BpfFilter] with its [Name], or a filter
    of another type. *)
Inductive Filter : Type :=
| BpfFilter (Name : string)
| OtherFilter.

(** What the two functions ask of the [netlink] package: [LinkList],
    [FilterList] on a link with the ingress parent, and the name in the
    attributes of a link; [None] for an error. *)
Record Netlink (Link : Type) : Type := {
  LinkList : option (list Link);
  FilterList : Link → option (list Filter);
  AttrsName : Link → string
}.
Arguments LinkList {Link} _.
Arguments FilterList {Link} _ _.
Arguments AttrsName {Link} _ _.

(** [strings.Contains(s, substr)]. *)
Fixpoint strings_Contains (s substr : string) : bool :=
  String.prefix substr s
  || match s with
     | EmptyString => false
     | String _ rest => strings_Contains rest substr
     end.

(** The loop over the filters of a link. *)
Fixpoint hasDecryptionFilter (filters : list Filter) : bool :=
  match filters with
  | [] => false
  | BpfFilter name :: rest =>
      if strings_Contains name "cil_from_network" then true
      else hasDecryptionFilter rest
  | OtherFilter :: rest => hasDecryptionFilter rest
  end.

(** [isDecryptionInterface]: [None] is the error of [FilterList]. *)
Definition isDecryptionInterface {Link} (netlink : Netlink Link) (link : Link)
  : option bool :=
  match FilterList netlink link with
  | None => None
  | Some filters => Some (hasDecryptionFilter filters)
  end.

(** The loop over the links, from the value [decryptionIfaces] has when it
    reaches [links]. *)
Fixpoint decryptionLoop {Link} (netlink : Netlink Link)
    (decryptionIfaces : list string) (links : list Link) : outcome (list string) :=
  match links with
  | [] => Return decryptionIfaces
  | link :: rest =>
      match isDecryptionInterface netlink link with
      | None => Fatal (FailedListBPFPrograms (AttrsName netlink link))
      | Some itIs =>
          decryptionLoop netlink
            (if itIs then decryptionIfaces ++ [AttrsName netlink link]
             else decryptionIfaces)
            rest
      end
  end.

Definition getDecryptionInterfaces {Link} (netlink : Netlink Link)
  : outcome (list string) :=
  match LinkList netlink with
  | None => Fatal FailedListInterfaces
  | Some links => decryptionLoop netlink [] links
  end.

(** ** What the statements below speak of *)

(** Every byte of [s] is in [[:xdigit:]]; [s] starts with such a byte. *)
Fixpoint allXDigit (s : string) : Prop :=
  match s with
  | EmptyString => True
  | String c rest => isXDigit c = true ∧ allXDigit rest
  end.

Definition startsXDigit (s : string) : Prop :=
  match s with
  | EmptyString => False
  | String c _ => isXDigit c = true
  end.

(** The pattern read as a description of text: [s] starts with [oseq], a
    blank, [0], [x] or [X], and then the hexadecimal digits [digits], all
    there are at that place. *)
Definition matchesAt (s digits : string) : Prop :=
  ∃ b x rest,
    s = ("oseq" ++ String b ("0" ++ String x (digits ++ rest)))%string
    ∧ (b = " "%char ∨ b = "009"%char)
    ∧ (x = "x"%char ∨ x = "X"%char)
    ∧ digits ≠ EmptyString
    ∧ allXDigit digits
    ∧ ¬ startsXDigit rest.

(** The number a string of hexadecimal digits writes, continuing [acc]. *)
Fixpoint hexNumber (acc : Z) (s : string) : Z :=
  match s with
  | EmptyString => acc
  | String c rest => hexNumber (acc * 16 + default 0 (hexDigitValue c)) rest
  end.

(** The sequence number of a line as the loop of [extractMaxSequenceNumber]
    sees it: [None] without a match, [Some None] when the match does not
    parse, [Some (Some oseq)] otherwise. *)
Definition lineSeq (line : string) : option (option Z) :=
  ParseInt_16_64 <$> FindStringSubmatch1 line.

(** The sum of the values of the fields. *)
Definition sumFields (stats : list (string * Z)) : Z :=
  foldr (λ field acc, field.2 + acc) 0 stats.

End EncryptStatus.

(** * Properties *)

(** Case analysis on every [decide] of the goal. *)
Ltac decide_all :=
  repeat match goal with
         | |- context [decide ?P] => destruct (decide P)
         end.

(** No value is an element of the empty range. *)
Ltac absurd_nil :=
  exfalso; destruct_and?;
  match goal with H : _ ∈ [] |- _ => by apply not_elem_of_nil in H end.

(** Closes the impossible combinations [decide_all] leaves behind. *)
Ltac absurd_case :=
  exfalso; rewrite ?elem_of_cons in *; destruct_and?; subst;
  intuition (auto; congruence).

(** ** Per-type facts *)

Lemma probedKind_cases k :
  probedKind k ↔ k = MapTypeLPMTrie ∨ k = MapTypeLRUHash.
Proof.
  unfold probedKind, mapTypeToFeatureString.
  destruct (Z.eqb_spec k MapTypeLPMTrie) as [->|H1];
    [split; [by left|discriminate]|].
  destruct (Z.eqb_spec k MapTypeLRUHash) as [->|H2];
    [split; [by right|discriminate]|].
  split; [congruence|intros [?|?]; contradiction].
Qed.

Lemma probedKind_in_range k : probedKind k → k ∈ mapTypeRange.
Proof.
  intros [-> | ->]%probedKind_cases; apply elem_of_seqZ; vm_compute;
    intuition congruence.
Qed.

Lemma bytes_Compare_eq a b : bytes_Compare a b = 0 ↔ a = b.
Proof.
  unfold bytes_Compare. split.
  - destruct (String.compare a b) eqn:E; try discriminate.
    intros _. by apply String.compare_eq_iff.
  - intros ->. replace (String.compare b b) with Eq; [done|].
    induction b as [|c b IH]; simpl; [done|].
    replace (Ascii.compare c c) with Eq; [done|].
    symmetry. unfold Ascii.compare. apply N.compare_refl.
Qed.

(** ** The line scanner *)

Example Scanner_tokens_empty : Scanner_tokens "" = [].
Proof. reflexivity. Qed.

Example Scanner_tokens_unterminated :
  Scanner_tokens "#define HAVE_LPM_MAP_TYPE" = ["#define HAVE_LPM_MAP_TYPE"].
Proof. reflexivity. Qed.

Example Scanner_tokens_crlf :
  Scanner_tokens ("a" ++ String CR (String LF (String LF "b")))
  = ["a"; ""; "b"].
Proof. reflexivity. Qed.


(** ** The loops of ReadFeatureProbes *)

Lemma probeLine_lookup line tbl mt k :
  probeLine line tbl mt !! k =
  if decide (mt = k ∧ matches line k) then Some true else tbl !! k.
Proof.
  unfold probeLine, matches, probedKind.
  destruct (String.eqb_spec (mapTypeToFeatureString mt) "") as [E|E];
    cbn [negb andb].
  - decide_all; [|done]. destruct_and!. congruence.
  - destruct (Z.eqb_spec (bytes_Compare line (mapTypeToFeatureString mt)) 0)
      as [C|C]; rewrite bytes_Compare_eq in C.
    + rewrite lookup_insert. decide_all; try done; subst; tauto.
    + decide_all; [|done]. destruct_and!. congruence.
Qed.

Lemma foldl_probeLine_lookup line l tbl k :
  foldl (probeLine line) tbl l !! k =
  if decide (k ∈ l ∧ matches line k) then Some true else tbl !! k.
Proof.
  revert tbl. induction l as [|mt l IH]; intros tbl; cbn [foldl].
  - decide_all; [absurd_nil|done].
  - rewrite IH, probeLine_lookup.
    decide_all; try done; absurd_case.
Qed.

Lemma scanLoop_lookup lines tbl k :
  scanLoop lines tbl !! k =
  if decide (probedKind k ∧ mapTypeToFeatureString k ∈ lines)
  then Some true else tbl !! k.
Proof.
  unfold scanLoop. revert tbl.
  induction lines as [|line lines IH]; intros tbl; cbn [foldl].
  - decide_all; [absurd_nil|done].
  - rewrite IH, foldl_probeLine_lookup. unfold matches.
    pose proof (probedKind_in_range k).
    decide_all; try done; absurd_case.
Qed.

Lemma foldl_markUnprobed_lookup l tbl k :
  foldl markUnprobed tbl l !! k =
  if decide (k ∈ l ∧ probedKind k) then Some (default false (tbl !! k))
  else tbl !! k.
Proof.
  revert tbl. induction l as [|mt l IH]; intros tbl; cbn [foldl].
  - decide_all; [absurd_nil|done].
  - rewrite IH. unfold markUnprobed.
    destruct (String.eqb_spec (mapTypeToFeatureString mt) "") as [E|E].
    + decide_all; try done; unfold probedKind in *; absurd_case.
    + destruct (decide (k = mt)) as [->|Hne].
      * destruct (tbl !! mt) eqn:Hmt.
        -- rewrite Hmt.
           decide_all; try done; unfold probedKind in *; absurd_case.
        -- rewrite lookup_insert_eq. cbn [default].
           decide_all; try done; unfold probedKind in *; absurd_case.
      * assert ((match tbl !! mt with
                 | Some _ => tbl
                 | None => <[mt:=false]> tbl
                 end) !! k = tbl !! k) as ->.
        { destruct (tbl !! mt); [done|]. by rewrite lookup_insert_ne. }
        decide_all; try done; absurd_case.
Qed.

Lemma ReadFeatureProbes_lookup data tbl :
  ∃ tbl', ReadFeatureProbes (Some data) tbl = Some tbl'
          ∧ ∀ k, tbl' !! k = probedEntry data tbl k.
Proof.
  eexists. split; [reflexivity|]. intros k. unfold probedEntry.
  rewrite foldl_markUnprobed_lookup, !scanLoop_lookup.
  pose proof (probedKind_in_range k).
  decide_all; try done; exfalso; tauto.
Qed.

(** ** Claims about the per-type facts *)

(** C4.  [MapType.String] is total, returns the label its [switch] fixes for
    each map type, never the empty string, and ["Unknown"] for every value
    outside the enumeration.  Inside the enumeration the two types without a
    case of their own, [MapTypeUnspec] and [MapTypeXSKMap], are labelled
    ["Unknown"] as well. *)
Theorem MapType_String_labels :
  (∀ t : MapType, MapType_String t ≠ "")
  ∧ (∀ t : MapType, ¬ inEnumeration t → MapType_String t = "Unknown")
  ∧ (∀ t : MapType,
       MapType_String t = "Unknown"
       ↔ ¬ inEnumeration t ∨ t = MapTypeUnspec ∨ t = MapTypeXSKMap)
  ∧ MapType_String MapTypeUnspec = "Unknown"
  ∧ MapType_String MapTypeHash = "Hash"
  ∧ MapType_String MapTypeArray = "Array"
  ∧ MapType_String MapTypeProgArray = "Program array"
  ∧ MapType_String MapTypePerfEventArray = "Event array"
  ∧ MapType_String MapTypePerCPUHash = "Per-CPU hash"
  ∧ MapType_String MapTypePerCPUArray = "Per-CPU array"
  ∧ MapType_String MapTypeStackTrace = "Stack trace"
  ∧ MapType_String MapTypeCgroupArray = "Cgroup array"
  ∧ MapType_String MapTypeLRUHash = "LRU hash"
  ∧ MapType_String MapTypeLRUPerCPUHash = "LRU per-CPU hash"
  ∧ MapType_String MapTypeLPMTrie = "Longest prefix match trie"
  ∧ MapType_String MapTypeArrayOfMaps = "Array of maps"
  ∧ MapType_String MapTypeHashOfMaps = "Hash of maps"
  ∧ MapType_String MapTypeDevMap = "Device Map"
  ∧ MapType_String MapTypeSockMap = "Socket Map"
  ∧ MapType_String MapTypeCPUMap = "CPU Redirect Map"
  ∧ MapType_String MapTypeXSKMap = "Unknown"
  ∧ MapType_String MapTypeSockHash = "Socket Hash".
Proof.
  split; [|split; [|split; [|repeat split]]].
  - intros t. unfold MapType_String.
    repeat match goal with
           | |- context [?a =? ?b] => destruct (a =? b); [discriminate|]
           end.
    discriminate.
  - intros t Hout. unfold inEnumeration in Hout. unfold MapType_String.
    repeat match goal with
           | |- context [t =? ?b] =>
               destruct (Z.eqb_spec t b) as [->|_];
               [exfalso; apply Hout; vm_compute; intuition congruence|]
           end.
    reflexivity.
  - intros t. unfold MapType_String, inEnumeration.
    repeat match goal with
           | |- context [t =? ?b] =>
               destruct (Z.eqb_spec t b) as [->|?];
               [split; [discriminate|];
                intros [Hout|[E|E]];
                [exfalso; apply Hout; vm_compute; intuition congruence
                |discriminate E..]|]
           end.
    split; [intros _|reflexivity].
    unfold MapTypeUnspec, MapTypeHash, MapTypeArray, MapTypeProgArray,
      MapTypePerfEventArray, MapTypePerCPUHash, MapTypePerCPUArray,
      MapTypeStackTrace, MapTypeCgroupArray, MapTypeLRUHash,
      MapTypeLRUPerCPUHash, MapTypeLPMTrie, MapTypeArrayOfMaps,
      MapTypeHashOfMaps, MapTypeDevMap, MapTypeSockMap, MapTypeCPUMap,
      MapTypeXSKMap, MapTypeSockHash, MapTypeMaximum in *.
    lia.
Qed.

(** C5.  [allowsPreallocation] is total and false for exactly one map type,
    [MapTypeLPMTrie]; it is true for every other value, listed or not. *)
Theorem allowsPreallocation_only_LPMTrie (t : MapType) :
  (allowsPreallocation t = false ↔ t = MapTypeLPMTrie)
  ∧ (allowsPreallocation t = true ↔ t ≠ MapTypeLPMTrie).
Proof.
  unfold allowsPreallocation.
  destruct (Z.eqb_spec t MapTypeLPMTrie); intuition congruence.
Qed.

(** C6.  [requiresPreallocation] is total and false for exactly
    [MapTypeHash], [MapTypePerCPUHash], [MapTypeLPMTrie] and
    [MapTypeHashOfMaps]; it is true for every other value, listed or not. *)
Theorem requiresPreallocation_false_cases (t : MapType) :
  (requiresPreallocation t = false
   ↔ t = MapTypeHash ∨ t = MapTypePerCPUHash
     ∨ t = MapTypeLPMTrie ∨ t = MapTypeHashOfMaps)
  ∧ (requiresPreallocation t = true
     ↔ t ≠ MapTypeHash ∧ t ≠ MapTypePerCPUHash
       ∧ t ≠ MapTypeLPMTrie ∧ t ≠ MapTypeHashOfMaps).
Proof.
  unfold requiresPreallocation.
  destruct (Z.eqb_spec t MapTypeHash), (Z.eqb_spec t MapTypePerCPUHash),
    (Z.eqb_spec t MapTypeLPMTrie), (Z.eqb_spec t MapTypeHashOfMaps);
    cbn [orb]; intuition congruence.
Qed.

(** ** Claims about GetMapType *)

Lemma GetMapType_eq (tbl : gmap Z bool) (k : MapType) :
  GetMapType tbl k =
  if decide ((k = MapTypeLPMTrie ∨ k = MapTypeLRUHash) ∧ ¬ supported tbl k)
  then MapTypeHash else k.
Proof.
  unfold GetMapType, mapIndex.
  assert ((k =? MapTypeLPMTrie) || (k =? MapTypeLRUHash) = true
          ↔ k = MapTypeLPMTrie ∨ k = MapTypeLRUHash) as Hcase
    by (by rewrite orb_true_iff, !Z.eqb_eq).
  destruct (decide _) as [[Hk Hs]|Hn]; unfold supported in *.
  - apply Hcase in Hk as ->.
    by destruct (tbl !! k) as [[]|].
  - destruct ((k =? MapTypeLPMTrie) || (k =? MapTypeLRUHash)); [|done].
    destruct (tbl !! k) as [[]|] eqn:E; cbn [default negb]; [done|..];
      exfalso; apply Hn; (split; [by apply Hcase|congruence]).
Qed.

(** C1.  [GetMapType] is total.  For [MapTypeLPMTrie] and [MapTypeLRUHash]
    it returns [MapTypeHash] whenever the table does not hold [true] for the
    type, which includes the type having no entry; it returns the type
    unchanged for every other type, and whenever the table holds [true] for
    it. *)
Theorem GetMapType_fallback (tbl : gmap Z bool) (k : MapType) :
  ((k = MapTypeLPMTrie ∨ k = MapTypeLRUHash) → ¬ supported tbl k →
   GetMapType tbl k = MapTypeHash)
  ∧ ((k = MapTypeLPMTrie ∨ k = MapTypeLRUHash) → notProbed tbl k →
     GetMapType tbl k = MapTypeHash)
  ∧ (k ≠ MapTypeLPMTrie → k ≠ MapTypeLRUHash → GetMapType tbl k = k)
  ∧ (supported tbl k → GetMapType tbl k = k).
Proof.
  rewrite GetMapType_eq. unfold notProbed, supported.
  repeat split; intros; decide_all; try done; exfalso;
    intuition congruence.
Qed.

(** The hypotheses of C1 are met: an empty table, a table that says
    [false], and a table that says [true]. *)
Lemma GetMapType_fallback_witness :
  GetMapType ∅ MapTypeLPMTrie = MapTypeHash
  ∧ GetMapType {[MapTypeLRUHash := false]} MapTypeLRUHash = MapTypeHash
  ∧ GetMapType ∅ MapTypeSockHash = MapTypeSockHash
  ∧ GetMapType {[MapTypeLPMTrie := true]} MapTypeLPMTrie = MapTypeLPMTrie.
Proof.
  split; [|split; [|split]].
  - apply (proj1 (proj2 (GetMapType_fallback ∅ MapTypeLPMTrie)));
      [by left|reflexivity].
  - apply (proj1 (GetMapType_fallback {[MapTypeLRUHash := false]} MapTypeLRUHash));
      [by right|]. unfold supported. by rewrite lookup_singleton_eq.
  - apply (proj1 (proj2 (proj2 (GetMapType_fallback ∅ MapTypeSockHash))));
      discriminate.
  - apply (proj2 (proj2 (proj2
             (GetMapType_fallback {[MapTypeLPMTrie := true]} MapTypeLPMTrie)))).
    unfold supported. by rewrite lookup_singleton_eq.
Defined.

(** C7.  [GetMapType] is idempotent over every table and every value. *)
Theorem GetMapType_idempotent (tbl : gmap Z bool) (k : MapType) :
  GetMapType tbl (GetMapType tbl k) = GetMapType tbl k.
Proof.
  rewrite (GetMapType_eq tbl k).
  destruct (decide _) as [Hfall|Hkeep]; rewrite GetMapType_eq.
  - destruct (decide _) as [[[E|E] _]|_]; [discriminate E..|reflexivity].
  - destruct (decide _); [contradiction|reflexivity].
Qed.

(** ** Claims about ReadFeatureProbes *)






(** C8.  [ReadFeatureProbes] is idempotent: from any table, a second run on
    the same file returns the table the first run returned. *)
Theorem ReadFeatureProbes_idempotent (data : string) (tbl : gmap Z bool) :
  ∃ tbl1, ReadFeatureProbes (Some data) tbl = Some tbl1
          ∧ ReadFeatureProbes (Some data) tbl1 = Some tbl1.
Proof.
  destruct (ReadFeatureProbes_lookup data tbl) as (tbl1 & Hrun1 & Hlook1).
  destruct (ReadFeatureProbes_lookup data tbl1) as (tbl2 & Hrun2 & Hlook2).
  exists tbl1. split; [exact Hrun1|].
  rewrite Hrun2. f_equal. apply map_eq. intros k.
  rewrite Hlook2. unfold probedEntry. rewrite Hlook1. unfold probedEntry.
  decide_all; done.
Qed.


(** The scan loop alone, for the second half of C10. *)
Lemma scanLoop_None data tbl k :
  scanLoop (Scanner_tokens data) tbl !! k = None ↔
  tbl !! k = None
  ∧ ¬ (probedKind k ∧ mapTypeToFeatureString k ∈ Scanner_tokens data).
Proof.
  rewrite scanLoop_lookup. destruct (decide _); intuition congruence.
Qed.

(** C10.  Support is monotone over repeated runs of [ReadFeatureProbes]: a
    type the table records as supported stays supported after a run on any
    file, also one without the type's token.  An explicit [false] that a run
    adds is for a probed type that had no entry in the table when the scan
    loop ended (and so none before the run either); no entry is ever changed
    to [false]. *)
Theorem ReadFeatureProbes_monotone (data : string) (tbl : gmap Z bool) :
  ∃ tbl', ReadFeatureProbes (Some data) tbl = Some tbl'
    ∧ (∀ k, supported tbl k → supported tbl' k)
    ∧ (∀ k, unsupported tbl' k → ¬ unsupported tbl k →
            probedKind k
            ∧ notProbed (scanLoop (Scanner_tokens data) tbl) k
            ∧ notProbed tbl k)
    ∧ (∀ k b, tbl !! k = Some b → tbl' !! k = Some b ∨ tbl' !! k = Some true).
Proof.
  destruct (ReadFeatureProbes_lookup data tbl) as (tbl' & Hrun & Hlook).
  exists tbl'. split; [exact Hrun|].
  unfold supported, unsupported, notProbed.
  split; [|split]; intros k.
  - rewrite Hlook. unfold probedEntry. intros ->. by decide_all.
  - rewrite Hlook, scanLoop_None. unfold probedEntry.
    destruct (decide (probedKind k)) as [Hp|Hp];
      [destruct (decide (_ ∈ _)) as [Hin|Hin]|]; try done.
    destruct (tbl !! k) as [[]|]; cbn [default]; try done.
    intros _ _. split; [done|]. split; [|done]. split; [done|tauto].
  - intros b Hb. rewrite Hlook. unfold probedEntry. rewrite Hb.
    decide_all; cbn [default]; auto.
Qed.

(** The hypothesis of C10 is met: a table that records [MapTypeLPMTrie] as
    supported, and a later run on an empty file. *)
Lemma ReadFeatureProbes_monotone_witness :
  supported {[MapTypeLPMTrie := true]} MapTypeLPMTrie
  ∧ ∃ tbl', ReadFeatureProbes (Some "") {[MapTypeLPMTrie := true]} = Some tbl'
            ∧ supported tbl' MapTypeLPMTrie.
Proof.
  assert (supported {[MapTypeLPMTrie := true]} MapTypeLPMTrie) as Hsup
    by (unfold supported; apply lookup_singleton_eq).
  split; [exact Hsup|].
  destruct (ReadFeatureProbes_monotone "" {[MapTypeLPMTrie := true]})
    as (tbl' & Hrun & Hmono & _).
  exists tbl'. split; [exact Hrun|]. apply Hmono, Hsup.
Defined.

(** ** The reconciliation engine *)

Section ReconcilerProperties.
Import Reconciler.

Lemma pass_failing (c : gmap string MapEntry) :
  map_imap (afterAttempt failing) c = c.
Proof.
  rewrite <- (map_imap_Some c) at 2. apply map_imap_ext. intros key.
  destruct (c !! key) as [e|]; cbn; [|done].
  unfold afterAttempt, attempt. by destruct (action e).
Qed.

Lemma failures_failing (c : gmap string MapEntry) :
  failures failing c = pendingCount c.
Proof.
  unfold failures, pendingCount. do 2 f_equal.
  apply map_filter_ext. intros key e _.
  unfold fails, pending, attempt. cbn.
  destruct (action e); cbn; intuition congruence.
Qed.

Lemma failures_working (c : gmap string MapEntry) : failures working c = 0.
Proof.
  unfold failures.
  replace (filter (fails working) c) with (∅ : gmap string MapEntry);
    [by rewrite map_size_empty|].
  symmetry. apply map_empty_filter_2. intros key e _.
  unfold fails, attempt. cbn. by destruct (action e).
Qed.

Lemma failures_nonneg K (c : gmap string MapEntry) : 0 ≤ failures K c.
Proof. unfold failures. lia. Qed.

(** The pass from [Scheduled], spelled out. *)
Lemma timerFire_Scheduled K m :
  phase m = Scheduled →
  timerFire K m = (finishPass K (startPass m), pendingCount (cache m)).
Proof. unfold timerFire. by intros ->. Qed.

Lemma timerFire_other K m : phase m ≠ Scheduled → timerFire K m = (m, 0).
Proof. unfold timerFire. by destruct (phase m). Qed.

Lemma finishPass_Failed_iff K m :
  phase (finishPass K (startPass m)) = Failed
  ↔ maxSyncErrors < errors (finishPass K (startPass m)).
Proof.
  unfold finishPass, startPass, maxSyncErrors. cbn.
  destruct (Z.eqb_spec (failures K (cache m)) 0) as [E|E]; cbn.
  - split; [discriminate|lia].
  - destruct (Z.eqb_spec (errors m + failures K (cache m)) 0) as [E0|E0];
      [rewrite E0; split; [discriminate|lia]|].
    destruct (Z.leb_spec (errors m + failures K (cache m)) 512);
      split; try discriminate; try lia; done.
Qed.

Lemma finishPass_ceiling K m :
  0 ≤ errors m →
  ceilingInv (finishPass K (startPass m)).
Proof.
  intros Hpos. split; [apply finishPass_Failed_iff|].
  pose proof (failures_nonneg K (cache m)) as Hn.
  unfold finishPass, startPass. cbn.
  destruct (Z.eqb_spec (failures K (cache m)) 0); lia.
Qed.

Lemma step_ceiling st op : ceilingInv st.1 → ceilingInv (step st op).1.
Proof.
  intros Hinv. destruct op as [key a v|K]; cbn.
  - destruct Hinv as [Hiff Hpos]. unfold ceilingInv. cbn. split; [|done].
    rewrite <- Hiff. by destruct (phase st.1).
  - destruct (decide (phase st.1 = Scheduled)) as [Hs|Hs].
    + rewrite timerFire_Scheduled by done. cbn.
      apply finishPass_ceiling, Hinv.
    + by rewrite timerFire_other.
Qed.

Lemma foldl_step_ceiling ops st :
  ceilingInv st.1 → ceilingInv (foldl step st ops).1.
Proof.
  revert st. induction ops as [|op ops IH]; intros st Hinv; cbn [foldl];
    [done|]. by apply IH, step_ceiling.
Qed.

(** A failed map absorbs every operation. *)
Lemma foldl_step_Failed ops st :
  phase st.1 = Failed →
  phase (foldl step st ops).1 = Failed
  ∧ errors (foldl step st ops).1 = errors st.1
  ∧ (foldl step st ops).2 = st.2.
Proof.
  revert st. induction ops as [|op ops IH]; intros st Hf; cbn [foldl];
    [done|].
  assert (phase (step st op).1 = Failed
          ∧ errors (step st op).1 = errors st.1
          ∧ (step st op).2 = st.2) as (Hp & He & Hc).
  { destruct op as [key a v|K]; cbn.
    - by rewrite Hf.
    - rewrite timerFire_other by congruence. cbn. split; [done|].
      split; [done|lia]. }
  destruct (IH _ Hp) as (Hp' & He' & Hc'). by rewrite Hp', He', Hc'.
Qed.

Lemma foldl_timer_Failed K n m cnt :
  phase m = Failed →
  foldl step (m, cnt) (replicate n (OpTimer K)) = (m, cnt).
Proof.
  intros Hf. induction n as [|n IH]; cbn [replicate foldl]; [done|].
  cbn. rewrite timerFire_other by congruence. cbn. by rewrite Z.add_0_r.
Qed.

(** Passes on a kernel that fails every call, for a map with one pending
    entry: each pass makes one call and counts one error, until the map
    fails. *)
Lemma foldl_failing_passes (n : nat) k c e cnt :
  pendingCount c = 1 →
  0 ≤ e ≤ maxSyncErrors →
  foldl step ({| kind := k; cache := c; errors := e; phase := Scheduled |}, cnt)
    (replicate n (OpTimer failing))
  = ({| kind := k; cache := c; errors := Z.min (e + Z.of_nat n) (maxSyncErrors + 1);
        phase := if e + Z.of_nat n <=? maxSyncErrors then Scheduled else Failed |},
     cnt + Z.min (Z.of_nat n) (maxSyncErrors + 1 - e)).
Proof.
  unfold maxSyncErrors. intros Hone. revert e cnt.
  induction n as [|n IH]; intros e cnt He; cbn [replicate foldl].
  - replace (e + Z.of_nat 0) with e by lia.
    destruct (Z.leb_spec e 512); [|lia].
    replace (Z.min e (512 + 1)) with e by lia.
    replace (cnt + Z.min (Z.of_nat 0) (512 + 1 - e)) with cnt by lia.
    reflexivity.
  - cbn [step timerFire fst snd phase cache].
    unfold finishPass, startPass. cbn [cache errors kind].
    rewrite failures_failing, pass_failing, Hone. cbn [Z.eqb].
    destruct (Z.eqb_spec (e + 1) 0); [lia|].
    unfold maxSyncErrors.
    destruct (Z.leb_spec (e + 1) 512) as [Hle|Hgt].
    + rewrite IH by lia.
      replace (e + 1 + Z.of_nat n) with (e + Z.of_nat (S n)) by lia.
      replace (cnt + 1 + Z.min (Z.of_nat n) (512 + 1 - (e + 1)))
        with (cnt + Z.min (Z.of_nat (S n)) (512 + 1 - e)) by lia.
      reflexivity.
    + rewrite foldl_timer_Failed by done.
      destruct (Z.leb_spec (e + Z.of_nat (S n)) 512); [lia|].
      replace (Z.min (e + Z.of_nat (S n)) (512 + 1)) with (e + 1) by lia.
      replace (cnt + Z.min (Z.of_nat (S n)) (512 + 1 - e)) with (cnt + 1)
        by lia.
      reflexivity.
Qed.

(** C3.  In the reconciliation engine of sections 3 and 4.4: a pass without
    failure resets the consecutive-error counter to zero and leaves the map
    [Idle]; a pass with failures adds them to the counter; after a pass, and
    in every state a registered map reaches, the map is [Failed] exactly
    when the counter exceeds [maxSyncErrors] = 512.  A map with one pending
    entry whose kernel call fails in every pass has counter [n] after [n]
    passes up to 513, is not failed through pass 512 and is [Failed] from
    pass 513 on, with no kernel call after the pass 513; 512 such passes
    followed by a pass that succeeds leave the counter at 0 and the map
    [Idle].  Once [Failed], a map stays [Failed] under every timer firing
    and every [SetDesired], with no kernel call and its counter unchanged;
    the explicit reset, like a fresh registration, gives a map that is
    [Idle] with counter 0 and an empty cache. *)
Theorem maxSyncErrors_ceiling :
  maxSyncErrors = 512
  ∧ (∀ K m, phase m = Scheduled → failures K (cache m) = 0 →
            errors (timerFire K m).1 = 0 ∧ phase (timerFire K m).1 = Idle)
  ∧ (∀ K m, phase m = Scheduled → failures K (cache m) ≠ 0 →
            errors (timerFire K m).1 = errors m + failures K (cache m))
  ∧ (∀ K m, phase m = Scheduled →
            (phase (timerFire K m).1 = Failed
             ↔ maxSyncErrors < errors (timerFire K m).1))
  ∧ (∀ tbl requestedKind ops,
       let m := (run ops (Register tbl requestedKind)).1 in
       phase m = Failed ↔ maxSyncErrors < errors m)
  ∧ (∀ (n : nat) m,
       phase m = Scheduled → errors m = 0 → pendingCount (cache m) = 1 →
       let r := run (replicate n (OpTimer failing)) m in
       errors r.1 = Z.min (Z.of_nat n) 513
       ∧ (phase r.1 = Failed ↔ 513 ≤ Z.of_nat n)
       ∧ r.2 = Z.min (Z.of_nat n) 513)
  ∧ (∀ m,
       phase m = Scheduled → errors m = 0 → pendingCount (cache m) = 1 →
       let r := run (replicate 512 (OpTimer failing) ++ [OpTimer working]) m in
       errors r.1 = 0 ∧ phase r.1 = Idle)
  ∧ (∀ ops m,
       phase m = Failed →
       let r := run ops m in
       phase r.1 = Failed ∧ errors r.1 = errors m ∧ r.2 = 0)
  ∧ (∀ m, phase (reset m) = Idle ∧ errors (reset m) = 0 ∧ cache (reset m) = ∅)
  ∧ (∀ tbl requestedKind,
       phase (Register tbl requestedKind) = Idle
       ∧ errors (Register tbl requestedKind) = 0
       ∧ cache (Register tbl requestedKind) = ∅).
Proof.
  split; [reflexivity|].
  split; [|split; [|split; [|split; [|split; [|split; [|split; [|split]]]]]]].
  - intros K m Hs Hz. rewrite timerFire_Scheduled by done.
    unfold finishPass, startPass. cbn. by rewrite Hz.
  - intros K m Hs Hnz. rewrite timerFire_Scheduled by done.
    unfold finishPass, startPass. cbn.
    by destruct (Z.eqb_spec (failures K (cache m)) 0).
  - intros K m Hs. rewrite timerFire_Scheduled by done. cbn [fst].
    apply finishPass_Failed_iff.
  - intros tbl requestedKind ops. cbv zeta. unfold run.
    assert (ceilingInv (Register tbl requestedKind, 0).1) as Hinit.
    { unfold ceilingInv, maxSyncErrors. cbn.
      split; [split; [discriminate|lia]|lia]. }
    exact (proj1 (foldl_step_ceiling ops _ Hinit)).
  - intros n [k c e p] Hs He Hone. cbn in Hs, He, Hone. subst p e.
    cbv zeta. unfold run.
    rewrite foldl_failing_passes by (unfold maxSyncErrors; done || lia).
    unfold maxSyncErrors. cbn [fst snd errors phase].
    destruct (Z.leb_spec (0 + Z.of_nat n) 512);
      (split; [lia|split; [split; [try discriminate; lia|try lia; done]|lia]]).
  - intros [k c e p] Hs He Hone. cbn in Hs, He, Hone. subst p e.
    cbv zeta. unfold run. rewrite foldl_app.
    rewrite foldl_failing_passes by (unfold maxSyncErrors; done || lia).
    unfold maxSyncErrors. cbn [foldl step fst snd].
    rewrite timerFire_Scheduled by done.
    unfold finishPass, startPass. cbn. by rewrite failures_working.
  - intros ops m Hf. cbv zeta. unfold run.
    by apply (foldl_step_Failed ops (m, 0)).
  - intros m. by unfold reset.
  - intros tbl requestedKind. by unfold Register.
Qed.

(** The hypotheses of C3 are met by a map registered on the empty table
    with one entry to insert: the kernel fails its write 513 times, or 512
    times and then succeeds. *)
Lemma maxSyncErrors_ceiling_witness :
  let m := SetDesired "key" Insert "value" (Register ∅ MapTypeLPMTrie) in
  phase m = Scheduled ∧ errors m = 0 ∧ pendingCount (cache m) = 1
  ∧ phase (run (replicate 512 (OpTimer failing)) m).1 ≠ Failed
  ∧ phase (run (replicate 513 (OpTimer failing)) m).1 = Failed
  ∧ errors (run (replicate 512 (OpTimer failing) ++ [OpTimer working]) m).1 = 0.
Proof.
  cbv zeta.
  assert (pendingCount
            (cache (SetDesired "key" Insert "value" (Register ∅ MapTypeLPMTrie)))
          = 1) as Hone.
  { cbn. unfold pendingCount. rewrite insert_empty.
    rewrite map_filter_singleton_True by (unfold pending; cbn; discriminate).
    by rewrite map_size_singleton. }
  split; [reflexivity|]. split; [reflexivity|]. split; [exact Hone|].
  pose proof maxSyncErrors_ceiling
    as (_ & _ & _ & _ & _ & Hfail & Hreset & _).
  pose (m := SetDesired "key" Insert "value" (Register ∅ MapTypeLPMTrie)).
  split; [|split].
  - intros Hf.
    apply (proj1 (proj2 (Hfail 512%nat m eq_refl eq_refl Hone))) in Hf. lia.
  - apply (proj1 (proj2 (Hfail 513%nat m eq_refl eq_refl Hone))). lia.
  - apply (proj1 (Hreset m eq_refl eq_refl Hone)).
Defined.

End ReconcilerProperties.

(** * Further properties of pkg/bpf/map.go *)

(** X1.  The labels of [MapType.String] are pairwise distinct: two values
    with the same label other than ["Unknown"] are the same map type. *)
Theorem MapType_String_injective (a b : MapType) :
  MapType_String a ≠ "Unknown" →
  MapType_String a = MapType_String b →
  a = b.
Proof.
  unfold MapType_String at 1 2.
  repeat match goal with
         | |- context [a =? ?c] =>
             destruct (Z.eqb_spec a c) as [->|_];
             [intros _; unfold MapType_String;
              repeat match goal with
                     | |- context [b =? ?c'] =>
                         destruct (Z.eqb_spec b c') as [->|_];
                         [first [reflexivity | discriminate]|]
                     end;
              discriminate|]
         end.
  intros H. by destruct H.
Qed.

Lemma MapType_String_injective_witness :
  MapTypeLRUHash = 9.
Proof.
  apply (MapType_String_injective MapTypeLRUHash 9);
    [discriminate|reflexivity].
Defined.

(** X2.  No map type requires a preallocation that it does not allow: a
    value for which [allowsPreallocation] is false has
    [requiresPreallocation] false. *)
Theorem preallocation_consistent (t : MapType) :
  allowsPreallocation t = false → requiresPreallocation t = false.
Proof.
  unfold allowsPreallocation, requiresPreallocation.
  destruct (Z.eqb_spec t MapTypeLPMTrie) as [->|_]; [done|discriminate].
Qed.

Lemma preallocation_consistent_witness :
  requiresPreallocation MapTypeLPMTrie = false.
Proof. apply (preallocation_consistent MapTypeLPMTrie). reflexivity. Defined.

(** X3.  [DesiredAction.String] gives the three actions three different
    labels, and the label ["unknown"] exactly to the values that are none
    of [OK], [Insert], [Delete]. *)
Theorem DesiredAction_String_labels :
  (∀ a b : DesiredAction,
     DesiredAction_String (DesiredAction_code a)
     = DesiredAction_String (DesiredAction_code b) → a = b)
  ∧ (∀ d : Z,
       DesiredAction_String d = "unknown"
       ↔ ∀ a : DesiredAction, d ≠ DesiredAction_code a).
Proof.
  split.
  - by intros [] [].
  - intros d. unfold DesiredAction_String.
    destruct (Z.eqb_spec d (DesiredAction_code OK)) as [->|H0];
      [split; [discriminate|intros H; by destruct (H OK)]|].
    destruct (Z.eqb_spec d (DesiredAction_code Insert)) as [->|H1];
      [split; [discriminate|intros H; by destruct (H Insert)]|].
    destruct (Z.eqb_spec d (DesiredAction_code Delete)) as [->|H2];
      [split; [discriminate|intros H; by destruct (H Delete)]|].
    split; [|done]. by intros _ [].
Qed.

(** X4.  Whatever the table, the type [GetMapType] returns is usable on the
    running kernel as far as the table knows: it is a type without feature
    string, or one the table records as supported. *)
Theorem GetMapType_result_supported (tbl : gmap Z bool) (k : MapType) :
  probedKind (GetMapType tbl k) → supported tbl (GetMapType tbl k).
Proof.
  rewrite GetMapType_eq.
  destruct (decide _) as [_|Hkeep]; [by intros []|].
  intros Hp. apply probedKind_cases in Hp.
  destruct (decide (supported tbl k)); [done|]. exfalso. by apply Hkeep.
Qed.

Lemma GetMapType_result_supported_witness :
  supported {[MapTypeLRUHash := true]}
    (GetMapType {[MapTypeLRUHash := true]} MapTypeLRUHash).
Proof.
  apply (GetMapType_result_supported {[MapTypeLRUHash := true]} MapTypeLRUHash).
  discriminate.
Defined.

(** X5.  [ReadFeatureProbes] only ever adds the two probed keys: after a run
    on any file from any table, the keys of the table are the keys it had
    together with [MapTypeLRUHash] and [MapTypeLPMTrie], and the entry of
    every type without feature string is what it was. *)
Theorem ReadFeatureProbes_frame (data : string) (tbl : gmap Z bool) :
  ∃ tbl', ReadFeatureProbes (Some data) tbl = Some tbl'
    ∧ dom tbl' = dom tbl ∪ {[MapTypeLRUHash; MapTypeLPMTrie]}
    ∧ ∀ k, ¬ probedKind k → tbl' !! k = tbl !! k.
Proof.
  destruct (ReadFeatureProbes_lookup data tbl) as (tbl' & Hrun & Hlook).
  exists tbl'. split; [exact Hrun|]. split.
  - apply set_eq. intros k.
    rewrite elem_of_union, !elem_of_dom, Hlook. unfold probedEntry.
    rewrite elem_of_union, !elem_of_singleton.
    pose proof (probedKind_cases k) as Hcases.
    destruct (decide (probedKind k)) as [Hp|Hp].
    + split; [intros _; right; tauto|intros _].
      destruct (decide _); by eexists.
    + split; [by left|]. intros [?|?]; [done|]. exfalso. tauto.
  - intros k Hp. rewrite Hlook. unfold probedEntry.
    by destruct (decide (probedKind k)).
Qed.

(** X6.  After a run of [ReadFeatureProbes] from any table, a type is
    recorded as supported exactly when it was so before the run or its
    token is among the lines of the file; so a token line also overrides an
    explicit [false] left by an earlier run. *)
Theorem ReadFeatureProbes_supported_iff (data : string) (tbl : gmap Z bool) :
  ∃ tbl', ReadFeatureProbes (Some data) tbl = Some tbl'
    ∧ ∀ k, supported tbl' k
           ↔ supported tbl k
             ∨ (probedKind k
                ∧ mapTypeToFeatureString k ∈ Scanner_tokens data).
Proof.
  destruct (ReadFeatureProbes_lookup data tbl) as (tbl' & Hrun & Hlook).
  exists tbl'. split; [exact Hrun|]. intros k.
  unfold supported. rewrite Hlook. unfold probedEntry.
  destruct (decide (probedKind k)) as [Hp|Hp];
    [destruct (decide (_ ∈ _)) as [Hin|Hin]|].
  - split; [intros _; by right|done].
  - destruct (tbl !! k) as [[]|]; cbn [default];
      (split; [intros ?; by left|intros [?|[_ ?]]; done]).
  - split; [intros ?; by left|intros [?|[? _]]; done].
Qed.

(** X7.  The outcome of [ReadFeatureProbes] depends on the file only through
    which of the feature strings are among the lines the scanner delivers
    from it: two files whose delivered lines agree on that give the same
    table, whatever the order of those lines, their repetitions and the
    other lines delivered. *)
Theorem ReadFeatureProbes_tokens_only (d1 d2 : string) (tbl : gmap Z bool) :
  (∀ k, probedKind k →
        mapTypeToFeatureString k ∈ Scanner_tokens d1
        ↔ mapTypeToFeatureString k ∈ Scanner_tokens d2) →
  ReadFeatureProbes (Some d1) tbl = ReadFeatureProbes (Some d2) tbl.
Proof.
  intros Hsame.
  destruct (ReadFeatureProbes_lookup d1 tbl) as (t1 & Hrun1 & Hlook1).
  destruct (ReadFeatureProbes_lookup d2 tbl) as (t2 & Hrun2 & Hlook2).
  rewrite Hrun1, Hrun2. f_equal. apply map_eq. intros k.
  rewrite Hlook1, Hlook2. unfold probedEntry.
  destruct (decide (probedKind k)) as [Hp|Hp]; [|done].
  specialize (Hsame k Hp).
  destruct (decide _), (decide _); try done; exfalso; tauto.
Qed.

Lemma ReadFeatureProbes_tokens_only_witness :
  ReadFeatureProbes
    (Some ("#define HAVE_LRU_MAP_TYPE" ++ String LF "#define HAVE_LPM_MAP_TYPE"))
    ∅
  = ReadFeatureProbes
      (Some ("#define HAVE_LPM_MAP_TYPE" ++ String LF "/* probes */"
             ++ String LF "#define HAVE_LRU_MAP_TYPE"
             ++ String LF "#define HAVE_LPM_MAP_TYPE"))
      ∅.
Proof.
  apply (ReadFeatureProbes_tokens_only
           ("#define HAVE_LRU_MAP_TYPE" ++ String LF "#define HAVE_LPM_MAP_TYPE")
           ("#define HAVE_LPM_MAP_TYPE" ++ String LF "/* probes */"
            ++ String LF "#define HAVE_LRU_MAP_TYPE"
            ++ String LF "#define HAVE_LPM_MAP_TYPE")).
  intros k [-> | ->]%probedKind_cases; vm_compute;
    split; intros _;
    repeat first [apply list_elem_of_here | apply list_elem_of_further].
Defined.

(** X8.  Runs of [ReadFeatureProbes] commute: from any table, probing file
    [d1] and then file [d2] leaves the table that probing [d2] and then
    [d1] leaves. *)
Theorem ReadFeatureProbes_commute (d1 d2 : string) (tbl : gmap Z bool) :
  ReadFeatureProbes (Some d1) tbl ≫= ReadFeatureProbes (Some d2)
  = ReadFeatureProbes (Some d2) tbl ≫= ReadFeatureProbes (Some d1).
Proof.
  destruct (ReadFeatureProbes_lookup d1 tbl) as (t1 & Hrun1 & Hlook1).
  destruct (ReadFeatureProbes_lookup d2 tbl) as (t2 & Hrun2 & Hlook2).
  destruct (ReadFeatureProbes_lookup d2 t1) as (t12 & Hrun12 & Hlook12).
  destruct (ReadFeatureProbes_lookup d1 t2) as (t21 & Hrun21 & Hlook21).
  rewrite Hrun1, Hrun2. cbn [mbind option_bind]. rewrite Hrun12, Hrun21.
  f_equal. apply map_eq. intros k.
  rewrite Hlook12, Hlook21. unfold probedEntry.
  rewrite Hlook1, Hlook2. unfold probedEntry.
  destruct (decide (probedKind k)); [|done].
  do 2 destruct (decide _); try done.
Qed.

(** X9.  Probing and resolving together: after [ReadFeatureProbes] has run
    on a file from the table the process starts with, [GetMapType] returns
    [MapTypeHash] for a probed type whose token is on no line of the file,
    and its argument in every other case. *)
Theorem GetMapType_after_ReadFeatureProbes (data : string) (k : MapType) :
  ∃ tbl', ReadFeatureProbes (Some data) supportedMapTypes_init = Some tbl'
    ∧ GetMapType tbl' k
      = if decide (probedKind k
                   ∧ mapTypeToFeatureString k ∉ Scanner_tokens data)
        then MapTypeHash else k.
Proof.
  destruct (ReadFeatureProbes_lookup data supportedMapTypes_init)
    as (tbl' & Hrun & Hlook).
  exists tbl'. split; [exact Hrun|].
  rewrite GetMapType_eq.
  pose proof (probedKind_cases k) as Hcases.
  specialize (Hlook k). unfold probedEntry in Hlook.
  destruct (decide (probedKind k ∧ _ ∉ _)) as [[Hp Hin]|Hn].
  - rewrite decide_True in Hlook by done.
    rewrite decide_False in Hlook by done.
    apply decide_True. split; [tauto|]. unfold supported. by rewrite Hlook.
  - apply decide_False. intros [Hk Hs]. apply Hs. unfold supported.
    rewrite Hlook. rewrite decide_True by tauto.
    rewrite decide_True; [done|].
    destruct (decide (mapTypeToFeatureString k ∈ Scanner_tokens data));
      [done|]. exfalso. apply Hn. split; [tauto|done].
Qed.

(** ** Line endings *)

Lemma str_app_cons c (s t : string) : (String c s ++ t)%string = String c (s ++ t).
Proof. reflexivity. Qed.

Lemma str_app_nil_r (s : string) : (s ++ "")%string = s.
Proof. induction s as [|c s IH]; [done|]. by rewrite str_app_cons, IH. Qed.

Lemma str_app_assoc (s t u : string) : ((s ++ t) ++ u = s ++ (t ++ u))%string.
Proof. induction s as [|c s IH]; [done|]. by rewrite !str_app_cons, IH. Qed.

Lemma str_length_app (s t : string) :
  String.length (s ++ t) = (String.length s + String.length t)%nat.
Proof.
  induction s as [|c s IH]; [done|].
  rewrite str_app_cons. cbn [String.length]. by rewrite IH.
Qed.

Lemma byteFree_app c (s t : string) :
  byteFree c (s ++ t) ↔ byteFree c s ∧ byteFree c t.
Proof.
  induction s as [|c' s IH]; [cbn; change (""%string ++ t)%string with t; tauto|].
  rewrite str_app_cons. cbn [byteFree]. tauto.
Qed.

(** One terminated line off the front of the data. *)
Lemma rawLines_line (acc l rest : string) :
  byteFree LF l →
  rawLines acc (l ++ String LF rest) = (acc ++ l)%string :: rawLines "" rest.
Proof.
  revert acc. induction l as [|c l IH]; intros acc Hfree.
  - change (""%string ++ String LF rest)%string with (String LF rest).
    cbn [rawLines]. rewrite Ascii.eqb_refl. by rewrite str_app_nil_r.
  - destruct Hfree as [Hc Hfree]. rewrite str_app_cons. cbn [rawLines].
    apply Ascii.eqb_neq in Hc. rewrite Hc. rewrite IH by done.
    by rewrite str_app_assoc.
Qed.

Lemma rawLines_fileOfLines (term : string) (ls : list string) :
  Forall (byteFree LF) ls → byteFree LF term →
  rawLines "" (fileOfLines (term ++ String LF "") ls) = (λ l, l ++ term)%string <$> ls.
Proof.
  intros Hls Hterm. induction Hls as [|l ls Hl _ IH]; [done|].
  cbn [fileOfLines foldr fmap list_fmap].
  rewrite <- !str_app_assoc, str_app_assoc.
  change (String LF "" ++ ?r)%string with (String LF r).
  rewrite rawLines_line by (by apply byteFree_app).
  change (""%string ++ ?s)%string with s. f_equal. apply IH.
Qed.

Lemma dropCR_snoc (l : string) : dropCR (l ++ String CR "") = l.
Proof.
  induction l as [|c l IH]; [done|].
  rewrite str_app_cons. destruct l as [|c' l].
  - reflexivity.
  - rewrite str_app_cons in *. cbn [dropCR]. cbn [dropCR] in IH.
    by rewrite IH.
Qed.

Lemma dropCR_id (l : string) : byteFree CR l → dropCR l = l.
Proof.
  induction l as [|c l IH]; [done|]. intros [Hc Hfree].
  destruct l as [|c' l].
  - cbn [dropCR]. apply Ascii.eqb_neq in Hc. by rewrite Hc.
  - cbn [dropCR]. cbn [dropCR] in IH. by rewrite IH.
Qed.

Lemma fitting_all (ls : list string) :
  Forall (λ l, Z.of_nat (String.length l) < MaxScanTokenSize) ls →
  fitting ls = ls.
Proof.
  induction 1 as [|l ls Hl _ IH]; [done|]. cbn [fitting].
  destruct (Z.ltb_spec (Z.of_nat (String.length l)) MaxScanTokenSize); [|lia].
  by rewrite IH.
Qed.

Lemma Scanner_tokens_LF (ls : list string) :
  Forall plainLine ls →
  Scanner_tokens (fileOfLines (String LF "") ls) = ls.
Proof.
  intros Hls. unfold Scanner_tokens.
  assert (Forall (byteFree LF) ls) as Hlf
    by (eapply Forall_impl; [exact Hls|by intros ? (?&?&?)]).
  pose proof (rawLines_fileOfLines "" ls Hlf I) as Hraw.
  change (""%string ++ String LF "")%string with (String LF "") in Hraw.
  rewrite Hraw. clear Hraw Hlf.
  assert ((λ l : string, (l ++ "")%string) <$> ls = ls) as ->.
  { clear Hls. induction ls as [|l ls IH]; [done|].
    cbn [fmap list_fmap]. rewrite str_app_nil_r. f_equal. apply IH. }
  rewrite fitting_all
    by (eapply Forall_impl; [exact Hls|intros ? (?&?&?); lia]).
  induction Hls as [|l ls (?&?&?) _ IH]; [done|].
  cbn [fmap list_fmap]. rewrite dropCR_id by done. f_equal. apply IH.
Qed.

Lemma Scanner_tokens_CRLF (ls : list string) :
  Forall plainLine ls →
  Scanner_tokens (fileOfLines (String CR (String LF "")) ls) = ls.
Proof.
  intros Hls. unfold Scanner_tokens.
  assert (Forall (byteFree LF) ls) as Hlf
    by (eapply Forall_impl; [exact Hls|by intros ? (?&?&?)]).
  assert (byteFree LF (String CR "")) as Hcr by (by split).
  pose proof (rawLines_fileOfLines (String CR "") ls Hlf Hcr) as Hraw.
  change (String CR "" ++ String LF "")%string
    with (String CR (String LF "")) in Hraw.
  rewrite Hraw. clear Hraw Hlf Hcr.
  rewrite fitting_all.
  - induction Hls as [|l ls _ _ IH]; [done|].
    cbn [fmap list_fmap]. rewrite dropCR_snoc. f_equal. apply IH.
  - induction Hls as [|l ls (?&?&?) _ IH]; [constructor|].
    cbn [fmap list_fmap]. constructor; [|apply IH].
    rewrite str_length_app. cbn [String.length]. lia.
Qed.

(** X10.  Line endings do not matter to the prober: for lines without
    newline or carriage return inside, each shorter than the scanner's
    buffer by two bytes, the file that ends every line in CR LF is scanned
    into the same lines, and probed into the same table, as the file that
    ends every line in LF. *)
Theorem ReadFeatureProbes_line_endings (ls : list string) (tbl : gmap Z bool) :
  Forall plainLine ls →
  Scanner_tokens (fileOfLines (String LF "") ls) = ls
  ∧ Scanner_tokens (fileOfLines (String CR (String LF "")) ls) = ls
  ∧ ReadFeatureProbes (Some (fileOfLines (String CR (String LF "")) ls)) tbl
    = ReadFeatureProbes (Some (fileOfLines (String LF "") ls)) tbl.
Proof.
  intros Hls. split; [by apply Scanner_tokens_LF|].
  split; [by apply Scanner_tokens_CRLF|].
  unfold ReadFeatureProbes.
  by rewrite Scanner_tokens_LF, Scanner_tokens_CRLF.
Qed.

Lemma ReadFeatureProbes_line_endings_witness :
  ReadFeatureProbes
    (Some (fileOfLines (String CR (String LF ""))
             ["/* generated */"; "#define HAVE_LPM_MAP_TYPE"])) ∅
  = ReadFeatureProbes
      (Some (fileOfLines (String LF "")
               ["/* generated */"; "#define HAVE_LPM_MAP_TYPE"])) ∅.
Proof.
  apply (ReadFeatureProbes_line_endings
           ["/* generated */"; "#define HAVE_LPM_MAP_TYPE"] ∅).
  repeat constructor; try discriminate; vm_compute; reflexivity.
Defined.

(** ** A line longer than the buffer of the scanner *)






(** * Properties of the [encrypt status] command *)

Section EncryptStatusProperties.
Import EncryptStatus.

(** ** Bytes and classes *)

Lemma byteCode_inj (c : ascii) (n : N) :
  byteCode c = Z.of_N n → c = ascii_of_N n.
Proof.
  unfold byteCode. intros H. apply N2Z.inj in H.
  by rewrite <- H, ascii_N_embedding.
Qed.

Lemma isBlank_spec (c : ascii) :
  isBlank c = true ↔ c = " "%char ∨ c = "009"%char.
Proof.
  unfold isBlank. rewrite orb_true_iff, !Z.eqb_eq. split.
  - intros [H|H]; [left; apply (byteCode_inj c 32 H)
                  |right; apply (byteCode_inj c 9 H)].
  - by intros [-> | ->]; [left|right].
Qed.

Lemma isXDigit_value (c : ascii) :
  isXDigit c = true ↔ ∃ d, hexDigitValue c = Some d ∧ 0 ≤ d < 16.
Proof.
  unfold isXDigit, hexDigitValue. cbv zeta.
  destruct (Z.leb_spec 48 (byteCode c)), (Z.leb_spec (byteCode c) 57),
    (Z.leb_spec 65 (byteCode c)), (Z.leb_spec (byteCode c) 70),
    (Z.leb_spec 97 (byteCode c)), (Z.leb_spec (byteCode c) 102);
    cbn [andb orb]; try lia;
    (split;
     [intros Hx;
      first [discriminate Hx | eexists; split; [reflexivity|lia]]
     |intros (d & Hd & _); first [discriminate Hd | reflexivity]]).
Qed.

Lemma isXDigit_not_sign (c : ascii) :
  isXDigit c = true → byteCode c ≠ 43 ∧ byteCode c ≠ 45.
Proof.
  unfold isXDigit. rewrite !orb_true_iff, !andb_true_iff, !Z.leb_le. lia.
Qed.

(** ** The capture group *)

Lemma xdigitRun_split (s : string) :
  ∃ rest, s = (xdigitRun s ++ rest)%string
          ∧ allXDigit (xdigitRun s) ∧ ¬ startsXDigit rest.
Proof.
  induction s as [|c s (rest & Hs & Hall & Hrest)].
  - exists ""%string. split; [reflexivity|]. split; [exact I|]. by intros [].
  - cbn [xdigitRun]. destruct (isXDigit c) eqn:Hc.
    + exists rest. rewrite str_app_cons, <- Hs.
      split; [reflexivity|]. split; [by split|done].
    + exists (String c s). split; [reflexivity|]. split; [exact I|].
      cbn [startsXDigit]. congruence.
Qed.

Lemma xdigitRun_app (d rest : string) :
  allXDigit d → ¬ startsXDigit rest → xdigitRun (d ++ rest) = d.
Proof.
  intros Hd Hrest. induction d as [|c d IH].
  - change (""%string ++ rest)%string with rest.
    destruct rest as [|c rest]; [done|]. cbn in *.
    by destruct (isXDigit c).
  - destruct Hd as [Hc Hd]. rewrite str_app_cons. cbn [xdigitRun].
    by rewrite Hc, IH.
Qed.

Lemma matchHere_spec (s d : string) : matchHere s = Some d ↔ matchesAt s d.
Proof.
  split.
  - destruct s as [|c1 [|c2 [|c3 [|c4 [|b [|z [|x rest]]]]]]]; try done.
    cbn [matchHere].
    destruct (_ && _) eqn:Hcond; [|done].
    rewrite !andb_true_iff, orb_true_iff, !Z.eqb_eq in Hcond.
    destruct Hcond as ((((((H1 & H2) & H3) & H4) & Hb) & Hz) & Hx).
    apply (byteCode_inj _ 111) in H1. apply (byteCode_inj _ 115) in H2.
    apply (byteCode_inj _ 101) in H3. apply (byteCode_inj _ 113) in H4.
    apply (byteCode_inj _ 48) in Hz. apply isBlank_spec in Hb.
    subst c1 c2 c3 c4 z.
    destruct (xdigitRun_split rest) as (rest' & Hrest & Hall & Hstop).
    destruct (xdigitRun rest) as [|c run] eqn:Hrun; [done|].
    intros [= <-]. exists b, x, rest'. rewrite <- Hrest.
    split; [reflexivity|]. split; [done|]. split; [|done].
    destruct Hx as [Hx|Hx];
      [left; apply (byteCode_inj _ 120 Hx)|right; apply (byteCode_inj _ 88 Hx)].
  - intros (b & x & rest & -> & Hb & Hx & Hne & Hall & Hstop).
    apply isBlank_spec in Hb.
    change (matchHere _) with
      (if (true && true && true && true && isBlank b && true
           && ((byteCode x =? 120) || (byteCode x =? 88)))
       then match xdigitRun (d ++ rest) with
            | EmptyString => None
            | digits => Some digits
            end
       else None).
    rewrite Hb. cbn [andb].
    assert ((byteCode x =? 120) || (byteCode x =? 88) = true) as ->
      by (by destruct Hx as [-> | ->]).
    rewrite xdigitRun_app by done. by destruct d.
Qed.

Lemma matchesAt_digits (s d : string) :
  matchesAt s d → d ≠ EmptyString ∧ allXDigit d.
Proof. by intros (b & x & rest & _ & _ & _ & ? & ? & _). Qed.

(** The leftmost match, step by step. *)
Lemma FindStringSubmatch1_unfold (line : string) :
  FindStringSubmatch1 line =
  match matchHere line with
  | Some digits => Some digits
  | None =>
      match line with
      | EmptyString => None
      | String _ rest => FindStringSubmatch1 rest
      end
  end.
Proof. by destruct line. Qed.

Lemma FindStringSubmatch1_Some (line d : string) :
  FindStringSubmatch1 line = Some d →
  ∃ pre s, line = (pre ++ s)%string ∧ matchesAt s d
    ∧ ∀ pre' s' d', line = (pre' ++ s')%string →
        (String.length pre' < String.length pre)%nat → ¬ matchesAt s' d'.
Proof.
  induction line as [|c line IH]; rewrite FindStringSubmatch1_unfold.
  - done.
  - destruct (matchHere (String c line)) as [d0|] eqn:Hhere.
    + intros [= ->]. exists ""%string, (String c line).
      split; [done|]. split; [by apply matchHere_spec|].
      intros pre' s' d' _ Hlen. cbn in Hlen. lia.
    + intros Hfind. destruct (IH Hfind) as (pre & s & -> & Hm & Hleft).
      exists (String c pre), s. split; [done|]. split; [done|].
      intros pre' s' d' Heq Hlen Hm'.
      destruct pre' as [|c' pre'].
      * change (""%string ++ s')%string with s' in Heq. subst s'.
        apply matchHere_spec in Hm'. congruence.
      * rewrite !str_app_cons in Heq. injection Heq as -> Heq.
        apply (Hleft pre' s' d' Heq); [|done]. cbn in Hlen. lia.
Qed.

Lemma FindStringSubmatch1_None (line : string) :
  FindStringSubmatch1 line = None ↔
  ∀ pre s d, line = (pre ++ s)%string → ¬ matchesAt s d.
Proof.
  induction line as [|c line IH]; rewrite FindStringSubmatch1_unfold.
  - split; [|done]. intros _ pre s d Heq Hm.
    destruct pre; [|done].
    change (""%string ++ s)%string with s in Heq. subst s.
    by apply matchHere_spec in Hm.
  - destruct (matchHere (String c line)) as [d0|] eqn:Hhere.
    + split; [done|]. intros Hno. exfalso.
      by apply (Hno ""%string (String c line) d0), matchHere_spec.
    + rewrite IH. split.
      * intros Hno pre s d Heq Hm. destruct pre as [|c' pre].
        -- change (""%string ++ s)%string with s in Heq. subst s.
           apply matchHere_spec in Hm. congruence.
        -- rewrite str_app_cons in Heq. injection Heq as -> Heq.
           by apply (Hno pre s d).
      * intros Hno pre s d -> Hm. by apply (Hno (String c pre) s d).
Qed.

(** X11.  [FindStringSubmatch1], the capture the loop of
    [extractMaxSequenceNumber] takes from a line, is the leftmost match of
    the pattern: when it gives [d], the line is some text followed by
    [oseq], one blank, [0], [x] or [X] and the digits [d], which are all the
    hexadecimal digits at that place, and there is no match starting
    further left; it gives nothing exactly when the pattern matches nowhere
    in the line. *)
Theorem FindStringSubmatch1_leftmost (line : string) :
  (∀ d, FindStringSubmatch1 line = Some d →
        ∃ pre s, line = (pre ++ s)%string ∧ matchesAt s d
          ∧ ∀ pre' s' d', line = (pre' ++ s')%string →
              (String.length pre' < String.length pre)%nat →
              ¬ matchesAt s' d')
  ∧ (FindStringSubmatch1 line = None ↔
     ∀ pre s d, line = (pre ++ s)%string → ¬ matchesAt s d).
Proof.
  split; [apply FindStringSubmatch1_Some|apply FindStringSubmatch1_None].
Qed.

Lemma FindStringSubmatch1_leftmost_witness :
  ∃ pre s, ("seq 0x0, oseq 0x2c, bitmap 0x0 oseq 0xff"
            = pre ++ s)%string
           ∧ matchesAt s "2c".
Proof.
  destruct (proj1 (FindStringSubmatch1_leftmost
                     "seq 0x0, oseq 0x2c, bitmap 0x0 oseq 0xff") "2c" eq_refl)
    as (pre & s & Heq & Hm & _).
  by exists pre, s.
Defined.

(** ** Parsing the capture *)

Lemma hexValueFrom_digits (acc : Z) (d : string) :
  allXDigit d → hexValueFrom acc d = Some (hexNumber acc d).
Proof.
  revert acc. induction d as [|c d IH]; intros acc; [done|].
  intros [Hc Hd]. apply isXDigit_value in Hc as (v & Hv & _).
  cbn [hexValueFrom hexNumber]. rewrite Hv. cbn [default]. by apply IH.
Qed.

Lemma hexNumber_nonneg (acc : Z) (d : string) :
  allXDigit d → 0 ≤ acc → acc ≤ hexNumber acc d.
Proof.
  revert acc. induction d as [|c d IH]; intros acc; [cbn; lia|].
  intros [Hc Hd] Hacc. apply isXDigit_value in Hc as (v & Hv & Hrange).
  cbn [hexNumber]. rewrite Hv. cbn [from_option id].
  specialize (IH (acc * 16 + v) Hd). lia.
Qed.

Lemma ParseInt_digits (d : string) :
  d ≠ EmptyString → allXDigit d →
  ParseInt_16_64 d
  = if hexNumber 0 d <? 2 ^ 63 then Some (hexNumber 0 d) else None.
Proof.
  intros Hne Hall. destruct d as [|c d]; [done|].
  pose proof (isXDigit_not_sign c (proj1 Hall)) as [H43 H45].
  unfold ParseInt_16_64.
  apply Z.eqb_neq in H43, H45. rewrite H43, H45.
  unfold parseMagnitude. by rewrite hexValueFrom_digits.
Qed.

Lemma capture_parses (line d : string) :
  FindStringSubmatch1 line = Some d →
  0 ≤ hexNumber 0 d
  ∧ ParseInt_16_64 d
    = if hexNumber 0 d <? 2 ^ 63 then Some (hexNumber 0 d) else None.
Proof.
  intros Hfind.
  destruct (FindStringSubmatch1_Some line d Hfind) as (_ & s & _ & Hm & _).
  apply matchesAt_digits in Hm as [Hne Hall].
  split; [by apply hexNumber_nonneg|by apply ParseInt_digits].
Qed.

(** X12.  The digits taken from a line always parse unless the number is
    too large: for a capture [d] of [FindStringSubmatch1],
    [strconv.ParseInt(d, 16, 64)] succeeds with the number [d] writes when
    that is below 2^63 and fails otherwise, so the [Fatalf] of
    [extractMaxSequenceNumber] is reached for no other reason; the number
    parsed is never negative. *)
Theorem ParseInt_of_capture (line d : string) :
  FindStringSubmatch1 line = Some d →
  0 ≤ hexNumber 0 d
  ∧ ParseInt_16_64 d
    = if hexNumber 0 d <? 2 ^ 63 then Some (hexNumber 0 d) else None.
Proof. apply capture_parses. Qed.

Lemma ParseInt_of_capture_witness :
  ParseInt_16_64 "8000000000000000" = None.
Proof.
  exact (proj2 (ParseInt_of_capture "oseq 0x8000000000000000"
                  "8000000000000000" eq_refl)).
Defined.

(** ** extractMaxSequenceNumber *)

Lemma lineSeq_range (line : string) (x : Z) :
  lineSeq line = Some (Some x) → 0 ≤ x < 2 ^ 63.
Proof.
  unfold lineSeq. destruct (FindStringSubmatch1 line) as [d|] eqn:Hfind;
    [|done].
  destruct (capture_parses line d Hfind) as [Hpos Hparse].
  cbn. rewrite Hparse.
  destruct (Z.ltb_spec (hexNumber 0 d) (2 ^ 63)); [|done].
  intros [= <-]. lia.
Qed.

Lemma maxSeqLoop_cons (m : Z) (line : string) (rest : list string) :
  maxSeqLoop m (line :: rest) =
  match lineSeq line with
  | None => maxSeqLoop m rest
  | Some None =>
      Fatal (FailedParseSequenceNumber
               (default EmptyString (FindStringSubmatch1 line)))
  | Some (Some oseq) => maxSeqLoop (if m <? oseq then oseq else m) rest
  end.
Proof.
  cbn [maxSeqLoop]. unfold lineSeq.
  destruct (FindStringSubmatch1 line) as [d|]; [|done]. cbn.
  destruct (ParseInt_16_64 d); [|done]. by rewrite Z.gtb_ltb.
Qed.

Lemma maxSeqLoop_Return (m : Z) (lines : list string) (v : Z) :
  maxSeqLoop m lines = Return v →
  m ≤ v
  ∧ (v = m ∨ ∃ line, line ∈ lines ∧ lineSeq line = Some (Some v))
  ∧ (∀ line x, line ∈ lines → lineSeq line = Some (Some x) → x ≤ v)
  ∧ (∀ line, line ∈ lines → lineSeq line ≠ Some None).
Proof.
  revert m. induction lines as [|line lines IH]; intros m.
  - intros [= <-]. split; [lia|]. split; [by left|].
    split; [intros ?? []%not_elem_of_nil|intros ? []%not_elem_of_nil].
  - rewrite maxSeqLoop_cons.
    destruct (lineSeq line) as [[oseq|]|] eqn:Hseq; [| done |].
    + intros Hloop. destruct (IH _ Hloop) as (Hle & Hwhich & Hmax & Hok).
      destruct (Z.ltb_spec m oseq) as [Hlt|Hge].
      * split; [lia|]. split; [|split].
        -- right. destruct Hwhich as [->|(l & Hl & Hv)].
           ++ exists line. split; [apply list_elem_of_here|done].
           ++ exists l. split; [by apply list_elem_of_further|done].
        -- intros l x [->|Hl]%elem_of_cons Hx; [|by eapply Hmax].
           rewrite Hseq in Hx. injection Hx as <-. lia.
        -- intros l [->|Hl]%elem_of_cons; [by rewrite Hseq|by apply Hok].
      * split; [lia|]. split; [|split].
        -- destruct Hwhich as [->|(l & Hl & Hv)]; [by left|].
           right. exists l. split; [by apply list_elem_of_further|done].
        -- intros l x [->|Hl]%elem_of_cons Hx; [|by eapply Hmax].
           rewrite Hseq in Hx. injection Hx as <-. lia.
        -- intros l [->|Hl]%elem_of_cons; [by rewrite Hseq|by apply Hok].
    + intros Hloop. destruct (IH _ Hloop) as (Hle & Hwhich & Hmax & Hok).
      split; [done|]. split; [|split].
      * destruct Hwhich as [->|(l & Hl & Hv)]; [by left|].
        right. exists l. split; [by apply list_elem_of_further|done].
      * intros l x [->|Hl]%elem_of_cons Hx; [congruence|by eapply Hmax].
      * intros l [->|Hl]%elem_of_cons; [by rewrite Hseq|by apply Hok].
Qed.

Lemma maxSeqLoop_total (m : Z) (lines : list string) :
  (∀ line, line ∈ lines → lineSeq line ≠ Some None) →
  ∃ v, maxSeqLoop m lines = Return v.
Proof.
  revert m. induction lines as [|line lines IH]; intros m Hok.
  - by eexists.
  - rewrite maxSeqLoop_cons.
    pose proof (Hok line (list_elem_of_here _ _)) as Hline.
    destruct (lineSeq line) as [[oseq|]|]; [|done|];
      apply IH; intros l Hl; by apply Hok, list_elem_of_further.
Qed.

Lemma lineSeq_fails (line : string) :
  lineSeq line = Some None ↔
  ∃ d, FindStringSubmatch1 line = Some d ∧ 2 ^ 63 ≤ hexNumber 0 d.
Proof.
  unfold lineSeq.
  destruct (FindStringSubmatch1 line) as [d|] eqn:Hfind.
  - destruct (capture_parses line d Hfind) as [_ Hparse]. cbn.
    rewrite Hparse. destruct (Z.ltb_spec (hexNumber 0 d) (2 ^ 63)).
    + split; [done|]. intros (d' & [= <-] & ?). lia.
    + split; [|done]. intros _. by exists d.
  - split; [done|]. by intros (d & ? & _).
Qed.

Lemma maxSeqLoop_Fatal (m : Z) (lines : list string) (f : fatal) :
  maxSeqLoop m lines = Fatal f →
  ∃ line d, line ∈ lines
            ∧ FindStringSubmatch1 line = Some d
            ∧ 2 ^ 63 ≤ hexNumber 0 d
            ∧ f = FailedParseSequenceNumber d.
Proof.
  revert m. induction lines as [|line lines IH]; intros m; [done|].
  rewrite maxSeqLoop_cons.
  destruct (lineSeq line) as [[oseq|]|] eqn:Hseq.
  - intros Hloop. destruct (IH _ Hloop) as (l & d & Hl & ?).
    exists l, d. split; [by apply list_elem_of_further|done].
  - intros [= <-]. apply lineSeq_fails in Hseq as (d & Hfind & Hbig).
    exists line, d. rewrite Hfind. split; [apply list_elem_of_here|done].
  - intros Hloop. destruct (IH _ Hloop) as (l & d & Hl & ?).
    exists l, d. split; [by apply list_elem_of_further|done].
Qed.

(** X13.  When [extractMaxSequenceNumber] returns, it returns the largest
    sequence number of the lines: a value from 0 up to 2^63 - 1 that is 0 or
    the number parsed from the first match of some line, and that no
    first match of any line exceeds. *)
Theorem extractMaxSequenceNumber_max (ipOutput : string) (v : Z) :
  extractMaxSequenceNumber ipOutput = Return v →
  0 ≤ v < 2 ^ 63
  ∧ (v = 0 ∨ ∃ line, line ∈ strings_Split_LF "" ipOutput
                      ∧ lineSeq line = Some (Some v))
  ∧ (∀ line x, line ∈ strings_Split_LF "" ipOutput →
               lineSeq line = Some (Some x) → x ≤ v).
Proof.
  unfold extractMaxSequenceNumber. intros Hloop.
  destruct (maxSeqLoop_Return _ _ _ Hloop) as (Hle & Hwhich & Hmax & _).
  split; [|by split].
  destruct Hwhich as [->|(line & _ & Hv)]; [lia|].
  by apply lineSeq_range in Hv.
Qed.

Lemma extractMaxSequenceNumber_max_witness :
  0 ≤ 255 < 2 ^ 63.
Proof.
  apply (extractMaxSequenceNumber_max
           ("  oseq 0x2c, bitmap 0x0" ++ String LF "oseq	0XfF oseq 0x1000")
           255 eq_refl).
Defined.

(** X14.  [extractMaxSequenceNumber] returns exactly when the first
    sequence number of every line is below 2^63; otherwise it ends in the
    [Fatalf] for a number that does not parse. *)
Theorem extractMaxSequenceNumber_returns (ipOutput : string) :
  ((∃ v, extractMaxSequenceNumber ipOutput = Return v)
   ↔ ∀ line d, line ∈ strings_Split_LF "" ipOutput →
               FindStringSubmatch1 line = Some d → hexNumber 0 d < 2 ^ 63)
  ∧ (∀ f, extractMaxSequenceNumber ipOutput = Fatal f →
          ∃ line d, line ∈ strings_Split_LF "" ipOutput
                    ∧ FindStringSubmatch1 line = Some d
                    ∧ 2 ^ 63 ≤ hexNumber 0 d
                    ∧ f = FailedParseSequenceNumber d).
Proof.
  unfold extractMaxSequenceNumber. split; [split|].
  - intros [v Hloop] line d Hin Hfind.
    destruct (maxSeqLoop_Return _ _ _ Hloop) as (_ & _ & _ & Hok).
    destruct (Z.lt_ge_cases (hexNumber 0 d) (2 ^ 63)) as [|Hbig]; [done|].
    exfalso. apply (Hok line Hin). apply lineSeq_fails. by exists d.
  - intros Hfit. apply maxSeqLoop_total. intros line Hin Hfail.
    apply lineSeq_fails in Hfail as (d & Hfind & Hbig).
    specialize (Hfit line d Hin Hfind). lia.
  - apply maxSeqLoop_Fatal.
Qed.

(** The pieces of a text put together from lines. *)
Lemma strings_Split_LF_line (piece l rest : string) :
  byteFree LF l →
  strings_Split_LF piece (l ++ String LF rest)
  = (piece ++ l)%string :: strings_Split_LF "" rest.
Proof.
  revert piece. induction l as [|c l IH]; intros piece Hfree.
  - change (""%string ++ String LF rest)%string with (String LF rest).
    cbn [strings_Split_LF]. rewrite Ascii.eqb_refl. by rewrite str_app_nil_r.
  - destruct Hfree as [Hc Hfree]. rewrite str_app_cons.
    cbn [strings_Split_LF]. apply Ascii.eqb_neq in Hc. rewrite Hc.
    rewrite IH by done. by rewrite str_app_assoc.
Qed.

Lemma strings_Split_LF_last (piece l : string) :
  byteFree LF l → strings_Split_LF piece l = [(piece ++ l)%string].
Proof.
  revert piece. induction l as [|c l IH]; intros piece Hfree.
  - cbn. by rewrite str_app_nil_r.
  - destruct Hfree as [Hc Hfree]. cbn [strings_Split_LF].
    apply Ascii.eqb_neq in Hc. rewrite Hc.
    rewrite IH by done. by rewrite str_app_assoc.
Qed.

Lemma strings_Split_LF_concat (ls : list string) :
  ls ≠ [] → Forall (byteFree LF) ls →
  strings_Split_LF "" (String.concat (String LF "") ls) = ls.
Proof.
  intros Hne Hls. induction Hls as [|l ls Hl Hls IH]; [done|].
  destruct ls as [|l' ls].
  - cbn [String.concat]. by rewrite strings_Split_LF_last.
  - cbn [String.concat].
    change (String LF "" ++ ?r)%string with (String LF r).
    rewrite strings_Split_LF_line by done.
    change (""%string ++ l)%string with l. f_equal. by apply IH.
Qed.

Lemma maxSeqLoop_Permutation (ls1 ls2 : list string) :
  ls1 ≡ₚ ls2 →
  ∀ m, returned (maxSeqLoop m ls1) = returned (maxSeqLoop m ls2).
Proof.
  induction 1 as [|x l1 l2 _ IH|x y l|l1 l2 l3 _ IH1 _ IH2]; intros m.
  - done.
  - rewrite !maxSeqLoop_cons. destruct (lineSeq x) as [[?|]|]; by try apply IH.
  - rewrite !maxSeqLoop_cons.
    destruct (lineSeq x) as [[a|]|] eqn:Hx, (lineSeq y) as [[b|]|] eqn:Hy;
      rewrite ?maxSeqLoop_cons, ?Hx, ?Hy; try done.
    do 2 f_equal.
    destruct (Z.ltb_spec m a), (Z.ltb_spec m b);
      repeat match goal with
             | |- context [?p <? ?q] => destruct (Z.ltb_spec p q)
             end; lia.
  - by rewrite IH1, IH2.
Qed.

(** X15.  The order of the lines does not matter to
    [extractMaxSequenceNumber]: on two texts made of the same lines in a
    different order it returns the same number, or returns on neither. *)
Theorem extractMaxSequenceNumber_line_order (ls1 ls2 : list string) :
  ls1 ≡ₚ ls2 → Forall (byteFree LF) ls1 →
  returned (extractMaxSequenceNumber (String.concat (String LF "") ls1))
  = returned (extractMaxSequenceNumber (String.concat (String LF "") ls2)).
Proof.
  intros Hperm Hls1.
  assert (Forall (byteFree LF) ls2) as Hls2 by (by rewrite <- Hperm).
  destruct ls1 as [|l1 ls1].
  { apply Permutation_nil_l in Hperm. by subst ls2. }
  destruct ls2 as [|l2 ls2].
  { by apply Permutation_nil_r in Hperm. }
  unfold extractMaxSequenceNumber.
  rewrite !strings_Split_LF_concat by done.
  by apply maxSeqLoop_Permutation.
Qed.

Lemma extractMaxSequenceNumber_line_order_witness :
  returned (extractMaxSequenceNumber
              (String.concat (String LF "") ["oseq 0x10"; "oseq 0x2c"; "src any"]))
  = returned (extractMaxSequenceNumber
                (String.concat (String LF "") ["src any"; "oseq 0x2c"; "oseq 0x10"])).
Proof.
  apply (extractMaxSequenceNumber_line_order
           ["oseq 0x10"; "oseq 0x2c"; "src any"]
           ["src any"; "oseq 0x2c"; "oseq 0x10"]).
  - exact (Permutation_rev ["oseq 0x10"; "oseq 0x2c"; "src any"]).
  - repeat constructor; discriminate.
Defined.

(** ** maxSequenceNumber *)

Lemma hexDigit_value (d : Z) :
  0 ≤ d < 16 →
  hexDigitValue (hexDigit d) = Some d ∧ isXDigit (hexDigit d) = true.
Proof.
  intros Hd. replace d with (Z.of_nat (Z.to_nat d)) by lia.
  assert (Z.to_nat d < 16)%nat as Hn by lia.
  generalize dependent (Z.to_nat d). intros n Hn.
  do 16 (destruct n as [|n]; [by vm_compute|]). lia.
Qed.

Lemma hexValueFrom_app (acc : Z) (s t : string) :
  hexValueFrom acc (s ++ t) = hexValueFrom acc s ≫= λ a, hexValueFrom a t.
Proof.
  revert acc. induction s as [|c s IH]; intros acc; [done|].
  rewrite str_app_cons. cbn [hexValueFrom].
  destruct (hexDigitValue c); [apply IH|done].
Qed.

Lemma hexDigits_value (fuel : nat) (n : Z) :
  (0 < fuel)%nat → 0 ≤ n < 16 ^ Z.of_nat fuel →
  hexValueFrom 0 (hexDigits fuel n) = Some n
  ∧ ∃ c s, hexDigits fuel n = String c s ∧ isXDigit c = true.
Proof.
  revert n. induction fuel as [|fuel IH]; intros n Hfuel Hn; [lia|].
  cbn [hexDigits]. destruct (Z.ltb_spec n 16) as [Hsmall|Hbig].
  - destruct (hexDigit_value n) as [Hv Hx]; [lia|].
    split; [cbn [hexValueFrom]; by rewrite Hv|by eexists _, _].
  - assert (0 < fuel)%nat as Hfuel'.
    { destruct fuel; [|lia]. change (16 ^ Z.of_nat 1) with 16 in Hn. lia. }
    assert (0 ≤ n / 16 < 16 ^ Z.of_nat fuel) as Hdiv.
    { split; [apply Z.div_pos; lia|].
      apply Z.div_lt_upper_bound; [lia|].
      rewrite Nat2Z.inj_succ, Z.pow_succ_r in Hn by lia. lia. }
    destruct (IH (n / 16) Hfuel' Hdiv) as (Hval & c & s & Hs & Hc).
    split.
    + rewrite hexValueFrom_app, Hval. cbn [mbind option_bind hexValueFrom].
      destruct (hexDigit_value (n mod 16)) as [Hv _];
        [apply Z.mod_pos_bound; lia|].
      rewrite Hv. f_equal. pose proof (Z.div_mod n 16). lia.
    + exists c, (s ++ String (hexDigit (n mod 16)) "")%string.
      by rewrite Hs, str_app_cons.
Qed.

Lemma ParseInt_Sprintf_x (m : Z) :
  0 ≤ m < 2 ^ 63 → ParseInt_16_64 (Sprintf_x m) = Some m.
Proof.
  intros Hm. unfold Sprintf_x.
  destruct (Z.ltb_spec m 0); [lia|].
  destruct (hexDigits_value 16 m) as (Hval & c & s & Hs & Hc); [lia|lia|].
  rewrite Hs in *. unfold ParseInt_16_64.
  destruct (isXDigit_not_sign c Hc) as [H43 H45].
  apply Z.eqb_neq in H43, H45. rewrite H43, H45.
  unfold parseMagnitude. rewrite Hval.
  by destruct (Z.ltb_spec m (2 ^ 63)); [|lia].
Qed.

(** X16.  What [maxSequenceNumber] prints reads back as what was found: when
    it returns, the largest sequence number [m] of the command output was
    extracted, and the text is [N/A] for [m] = 0 (also when every line says
    [oseq 0x0]) and otherwise [0x], the digits of [m], and [/0xffffffff],
    where the digits parse back to [m]. *)
Theorem maxSequenceNumber_reads_back (commandOutput text : string) :
  maxSequenceNumber (Some commandOutput) = Return text →
  ∃ m, extractMaxSequenceNumber commandOutput = Return m
    ∧ ((m = 0 ∧ text = "N/A")
       ∨ (0 < m
          ∧ text = ("0x" ++ Sprintf_x m ++ "/0xffffffff")%string
          ∧ ParseInt_16_64 (Sprintf_x m) = Some m)).
Proof.
  unfold maxSequenceNumber.
  destruct (extractMaxSequenceNumber commandOutput) as [m|f] eqn:Hext;
    [|done].
  intros Htext. exists m. split; [done|].
  destruct (maxSeqLoop_Return _ _ _ Hext) as (Hle & Hwhich & _).
  destruct (Z.eqb_spec m 0) as [->|Hne].
  - left. split; [done|]. by injection Htext.
  - right. split; [lia|]. split; [by injection Htext|].
    apply ParseInt_Sprintf_x.
    destruct Hwhich as [->|(line & _ & Hv)]; [done|].
    by apply lineSeq_range in Hv.
Qed.

Lemma maxSequenceNumber_reads_back_witness :
  ∃ m, extractMaxSequenceNumber "replay-window 0 oseq 0X2C" = Return m
    ∧ ((m = 0 ∧ "0x2c/0xffffffff" = "N/A")
       ∨ (0 < m
          ∧ "0x2c/0xffffffff" = ("0x" ++ Sprintf_x m ++ "/0xffffffff")%string
          ∧ ParseInt_16_64 (Sprintf_x m) = Some m)).
Proof.
  exact (maxSequenceNumber_reads_back "replay-window 0 oseq 0X2C"
           "0x2c/0xffffffff" eq_refl).
Defined.

(** ** getXfrmStats *)

Lemma wrap64_range (z : Z) : int64 (wrap64 z).
Proof.
  unfold int64, wrap64.
  pose proof (Z.mod_pos_bound (z + 2 ^ 63) (2 ^ 64)). lia.
Qed.

Lemma wrap64_small (z : Z) : int64 z → wrap64 z = z.
Proof.
  unfold int64, wrap64. intros Hz. rewrite Z.mod_small by lia. lia.
Qed.

Lemma wrap64_add_l (a b : Z) : wrap64 (wrap64 a + b) = wrap64 (a + b).
Proof.
  unfold wrap64.
  replace ((a + 2 ^ 63) mod 2 ^ 64 - 2 ^ 63 + b + 2 ^ 63)
    with ((a + 2 ^ 63) mod 2 ^ 64 + b) by lia.
  rewrite Zplus_mod_idemp_l. do 2 f_equal. lia.
Qed.

Lemma sumFields_cons (field : string * Z) (stats : list (string * Z)) :
  sumFields (field :: stats) = field.2 + sumFields stats.
Proof. reflexivity. Qed.

Lemma foldl_countField_count (c : Z) (m : gmap string Z)
    (stats : list (string * Z)) :
  int64 c →
  (foldl countField (c, m) stats).1 = wrap64 (c + sumFields stats).
Proof.
  revert c m. induction stats as [|[name v] stats IH]; intros c m Hc.
  - cbn. rewrite Z.add_0_r. by rewrite wrap64_small.
  - rewrite sumFields_cons. cbn [foldl]. unfold countField at 2.
    cbn [fst snd].
    destruct (Z.eqb_spec v 0) as [->|Hv].
    + rewrite IH by done. by rewrite Z.add_0_l.
    + rewrite IH by apply wrap64_range. rewrite wrap64_add_l.
      by rewrite Z.add_assoc.
Qed.

Lemma foldl_countField_map (c c' : Z) (m : gmap string Z)
    (stats : list (string * Z)) :
  (foldl countField (c, m) stats).2 = (foldl countField (c', m) stats).2.
Proof.
  revert c c' m. induction stats as [|[name v] stats IH]; intros c c' m;
    [done|].
  cbn [foldl]. unfold countField at 2 4. cbn [fst snd].
  destruct (v =? 0); apply IH.
Qed.

Lemma foldl_countField_lookup (c : Z) (m : gmap string Z)
    (stats : list (string * Z)) (name : string) (v : Z) :
  (foldl countField (c, m) stats).2 !! name = Some v →
  m !! name = Some v ∨ (v ≠ 0 ∧ (name, v) ∈ stats).
Proof.
  revert c m. induction stats as [|[name' v'] stats IH]; intros c m;
    [by left|].
  cbn [foldl]. unfold countField at 2. cbn [fst snd].
  destruct (Z.eqb_spec v' 0) as [->|Hv'].
  - intros [?|[? ?]]%IH; [by left|].
    right. split; [done|]. by apply list_elem_of_further.
  - intros [Hm|[? ?]]%IH.
    + destruct (decide (name' = name)) as [->|Hne].
      * rewrite lookup_insert_eq in Hm. injection Hm as <-.
        right. split; [done|]. apply list_elem_of_here.
      * rewrite lookup_insert_ne in Hm by done. by left.
    + right. split; [done|]. by apply list_elem_of_further.
Qed.

Lemma foldl_countField_keep (c : Z) (m : gmap string Z)
    (stats : list (string * Z)) (name : string) :
  name ∉ stats.*1 →
  (foldl countField (c, m) stats).2 !! name = m !! name.
Proof.
  revert c m. induction stats as [|[name' v'] stats IH]; intros c m Hnot;
    [done|].
  cbn [fmap list_fmap fst] in Hnot. apply not_elem_of_cons in Hnot as [Hne Hnot].
  cbn [foldl]. unfold countField at 2. cbn [fst snd].
  destruct (v' =? 0); rewrite IH by done; [done|].
  by rewrite lookup_insert_ne.
Qed.

Lemma foldl_countField_present (c : Z) (m : gmap string Z)
    (stats : list (string * Z)) (name : string) (v : Z) :
  is_Some (m !! name) ∨ (v ≠ 0 ∧ (name, v) ∈ stats) →
  is_Some ((foldl countField (c, m) stats).2 !! name).
Proof.
  revert c m. induction stats as [|[name' v'] stats IH]; intros c m.
  - intros [?|[_ []%not_elem_of_nil]]. done.
  - intros Hcase. cbn [foldl]. unfold countField at 2. cbn [fst snd].
    destruct (Z.eqb_spec v' 0) as [->|Hv']; apply IH.
    + destruct Hcase as [Hm|[Hv [[= -> ->]|Hin]%elem_of_cons]];
        [by left|done|by right].
    + destruct Hcase as [Hm|[Hv [[= -> ->]|Hin]%elem_of_cons]].
      * left. destruct (decide (name' = name)) as [->|Hne];
          [by rewrite lookup_insert_eq|by rewrite lookup_insert_ne].
      * left. by rewrite lookup_insert_eq.
      * by right.
Qed.

Lemma getXfrmStats_Return {FS} (procfs : Procfs FS) (mountPoint : string)
    (c : Z) (r : Z * gmap string Z) :
  getXfrmStats procfs mountPoint c = Return r →
  ∃ fs stats,
    (if decide (mountPoint = "") then NewDefaultFS procfs
     else NewFS procfs mountPoint) = Some fs
    ∧ NewXfrmStat procfs fs = Some stats
    ∧ r = foldl countField (c, ∅) stats.
Proof.
  unfold getXfrmStats.
  assert ((if (mountPoint =? "")%string then NewDefaultFS procfs
           else NewFS procfs mountPoint)
          = (if decide (mountPoint = "") then NewDefaultFS procfs
             else NewFS procfs mountPoint)) as ->.
  { destruct (String.eqb_spec mountPoint ""), (decide (mountPoint = ""));
      done. }
  destruct (if decide _ then _ else _) as [fs|]; [|done].
  destruct (NewXfrmStat procfs fs) as [stats|] eqn:Hst; [|done].
  intros [= <-]. by exists fs, stats.
Qed.

(** X17.  When [getXfrmStats] returns, the file system handle came from
    [NewDefaultFS] for an empty mount point and from [NewFS] otherwise, the
    count returned is the package counter at the call plus the values of
    all fields (in 64-bit arithmetic), and the error map holds only fields
    of the statistics with their non-zero values; with field names that
    differ, it holds every field that is not zero. *)
Theorem getXfrmStats_count_and_map {FS} (procfs : Procfs FS)
    (mountPoint : string) (countErrors : Z) (r : Z * gmap string Z) :
  int64 countErrors →
  getXfrmStats procfs mountPoint countErrors = Return r →
  ∃ fs stats,
    (if decide (mountPoint = "") then NewDefaultFS procfs
     else NewFS procfs mountPoint) = Some fs
    ∧ NewXfrmStat procfs fs = Some stats
    ∧ r.1 = wrap64 (countErrors + sumFields stats)
    ∧ (∀ name v, r.2 !! name = Some v → v ≠ 0 ∧ (name, v) ∈ stats)
    ∧ (NoDup stats.*1 →
       ∀ name v, (name, v) ∈ stats → v ≠ 0 → r.2 !! name = Some v).
Proof.
  intros Hc Hret.
  destruct (getXfrmStats_Return _ _ _ _ Hret) as (fs & stats & Hfs & Hst & ->).
  exists fs, stats. split; [done|]. split; [done|].
  split; [by apply foldl_countField_count|]. split.
  - intros name v [Hm|?]%foldl_countField_lookup; [|done].
    by rewrite lookup_empty in Hm.
  - clear Hfs Hst Hret. generalize (∅ : gmap string Z).
    revert countErrors Hc.
    induction stats as [|[name' v'] stats IH];
      intros c Hc m Hnd name v Hin Hv; [by apply not_elem_of_nil in Hin|].
    cbn [fmap list_fmap fst] in Hnd. apply NoDup_cons in Hnd as [Hfresh Hnd].
    cbn [foldl]. unfold countField at 2. cbn [fst snd].
    apply elem_of_cons in Hin as [[= -> ->]|Hin].
    + apply Z.eqb_neq in Hv. rewrite Hv.
      rewrite foldl_countField_keep by done. apply lookup_insert_eq.
    + destruct (v' =? 0); [by apply IH|].
      by apply IH; [apply wrap64_range|..].
Qed.

Lemma getXfrmStats_count_and_map_witness :
  ∃ r, getXfrmStats
         {| NewDefaultFS := Some tt; NewFS := λ _, None;
            NewXfrmStat := λ _, Some [("XfrmInError", 3);
                                      ("XfrmInNoStates", 0);
                                      ("XfrmOutError", 4)] |} "" 5
       = Return r
    ∧ r.1 = 12.
Proof.
  eexists. split; [reflexivity|].
  destruct (getXfrmStats_count_and_map
              {| NewDefaultFS := Some tt; NewFS := λ _, None;
                 NewXfrmStat := λ _, Some [("XfrmInError", 3);
                                           ("XfrmInNoStates", 0);
                                           ("XfrmOutError", 4)] |}
              "" 5 _ ltac:(vm_compute; split; [discriminate|reflexivity])
              eq_refl)
    as (fs & stats & _ & [= <-] & Hcount & _).
  exact Hcount.
Defined.

(** X18.  The count of [getXfrmStats] accumulates in the package variable
    [countErrors]: a second call on unchanged statistics returns the first
    count twice over (in 64-bit arithmetic), with the same error map. *)
Theorem getXfrmStats_accumulates {FS} (procfs : Procfs FS)
    (mountPoint : string) (r1 : Z * gmap string Z) :
  getXfrmStats procfs mountPoint 0 = Return r1 →
  ∃ r2, getXfrmStats procfs mountPoint r1.1 = Return r2
    ∧ r2.1 = wrap64 (2 * r1.1)
    ∧ r2.2 = r1.2.
Proof.
  unfold getXfrmStats.
  destruct (if (mountPoint =? "")%string then _ else _) as [fs|]; [|done].
  destruct (NewXfrmStat procfs fs) as [stats|]; [|done].
  intros [= <-]. eexists. split; [reflexivity|].
  assert (int64 0) as H0 by (unfold int64; lia).
  rewrite (foldl_countField_count 0 ∅ stats H0). split.
  - rewrite foldl_countField_count by apply wrap64_range.
    rewrite wrap64_add_l.
    replace (2 * wrap64 (0 + sumFields stats))
      with (wrap64 (0 + sumFields stats) + wrap64 (0 + sumFields stats))
      by lia.
    rewrite wrap64_add_l.
    rewrite (Z.add_comm (0 + sumFields stats) (wrap64 _)), wrap64_add_l.
    f_equal.
  - apply foldl_countField_map.
Qed.

Lemma getXfrmStats_accumulates_witness :
  ∃ r2, getXfrmStats
          {| NewDefaultFS := Some tt; NewFS := λ _, None;
             NewXfrmStat := λ _, Some [("XfrmInError", 3);
                                       ("XfrmOutError", 4)] |} "" 7
        = Return r2
    ∧ r2.1 = 14.
Proof.
  destruct (getXfrmStats_accumulates
              {| NewDefaultFS := Some tt; NewFS := λ _, None;
                 NewXfrmStat := λ _, Some [("XfrmInError", 3);
                                           ("XfrmOutError", 4)] |}
              "" _ eq_refl) as (r2 & Hret & Hcount & _).
  exists r2. split; [exact Hret|]. rewrite Hcount. reflexivity.
Defined.

Lemma sumFields_zero (stats : list (string * Z)) :
  Forall (λ field, 0 ≤ field.2) stats →
  0 ≤ sumFields stats
  ∧ (sumFields stats = 0 ↔ Forall (λ field, field.2 = 0) stats).
Proof.
  induction 1 as [|[name v] stats Hv _ (Hpos & Hiff)]; [done|].
  rewrite sumFields_cons. cbn [snd] in *. split; [lia|].
  rewrite Forall_cons. cbn [snd]. rewrite <- Hiff. lia.
Qed.

(** X19.  For statistics whose counters are not negative and do not add up
    beyond 63 bits, the count that [getXfrmStats] returns on a fresh package
    counter is zero exactly when the error map is empty, so the report of
    [dumpIPsecStatus], which lists the map only for a count that is not
    zero, leaves no error out. *)
Theorem getXfrmStats_zero_iff_empty {FS} (procfs : Procfs FS)
    (mountPoint : string) (r : Z * gmap string Z) :
  (∀ fs stats, NewXfrmStat procfs fs = Some stats →
               Forall (λ field, 0 ≤ field.2) stats
               ∧ sumFields stats < 2 ^ 63) →
  getXfrmStats procfs mountPoint 0 = Return r →
  (r.1 = 0 ↔ r.2 = ∅).
Proof.
  intros Hstats Hret.
  destruct (getXfrmStats_Return _ _ _ _ Hret) as (fs & stats & _ & Hst & ->).
  destruct (Hstats fs stats Hst) as [Hpos Hsmall].
  destruct (sumFields_zero stats Hpos) as [Hsum Hzero].
  rewrite foldl_countField_count by (unfold int64; lia).
  rewrite wrap64_small by (unfold int64; lia).
  rewrite Z.add_0_l, Hzero. split.
  - intros Hall. apply map_eq. intros name. rewrite lookup_empty.
    destruct (_ !! name) as [v|] eqn:Hv; [|done].
    apply foldl_countField_lookup in Hv as [Hv|[Hv Hin]];
      [by rewrite lookup_empty in Hv|].
    rewrite Forall_forall in Hall. by specialize (Hall _ Hin).
  - intros Hempty. apply Forall_forall. intros [name v] Hin. cbn.
    destruct (decide (v = 0)) as [|Hv]; [done|]. exfalso.
    destruct (foldl_countField_present 0 ∅ stats name v) as [x Hx];
      [by right|].
    by rewrite Hempty, lookup_empty in Hx.
Qed.

Lemma getXfrmStats_zero_iff_empty_witness :
  ∃ r, getXfrmStats
         {| NewDefaultFS := None; NewFS := λ _, Some tt;
            NewXfrmStat := λ _, Some [("XfrmInError", 0);
                                      ("XfrmOutError", 0)] |} "/proc" 0
       = Return r
    ∧ (r.1 = 0 ↔ r.2 = ∅).
Proof.
  eexists. split; [reflexivity|].
  apply (getXfrmStats_zero_iff_empty
           {| NewDefaultFS := None; NewFS := λ _, Some tt;
              NewXfrmStat := λ _, Some [("XfrmInError", 0);
                                        ("XfrmOutError", 0)] |} "/proc");
    [|reflexivity].
  intros fs stats [= <-]. split; [repeat constructor; done|reflexivity].
Defined.

(** ** isDecryptionInterface and getDecryptionInterfaces *)

Lemma prefix_spec (sub s : string) :
  String.prefix sub s = true ↔ ∃ post, s = (sub ++ post)%string.
Proof.
  revert s. induction sub as [|c sub IH]; intros s.
  - split; [intros _; by exists s|intros _; by destruct s].
  - destruct s as [|c' s]; cbn [String.prefix].
    + split; [done|]. by intros (post & ?).
    + destruct (ascii_dec c c') as [->|Hne].
      * rewrite IH. split; intros (post & Hs); exists post.
        -- by rewrite str_app_cons, <- Hs.
        -- rewrite str_app_cons in Hs. by injection Hs.
      * split; [done|]. intros (post & Hs).
        rewrite str_app_cons in Hs. by injection Hs.
Qed.

Lemma strings_Contains_spec (s sub : string) :
  strings_Contains s sub = true
  ↔ ∃ pre post, s = (pre ++ sub ++ post)%string.
Proof.
  induction s as [|c s IH]; cbn [strings_Contains];
    rewrite orb_true_iff, prefix_spec.
  - split.
    + intros [(post & Hs)|?]; [|done]. by exists ""%string, post.
    + intros (pre & post & Hs). left. exists post.
      destruct pre; [done|]. by rewrite str_app_cons in Hs.
  - rewrite IH. split.
    + intros [(post & Hs)|(pre & post & ->)].
      * by exists ""%string, post.
      * by exists (String c pre), post.
    + intros (pre & post & Hs). destruct pre as [|c' pre].
      * left. by exists post.
      * right. rewrite str_app_cons in Hs. injection Hs as _ ->.
        by exists pre, post.
Qed.

Lemma hasDecryptionFilter_spec (filters : list Filter) :
  hasDecryptionFilter filters = true
  ↔ ∃ name, BpfFilter name ∈ filters
            ∧ strings_Contains name "cil_from_network" = true.
Proof.
  induction filters as [|[name|] filters IH]; cbn [hasDecryptionFilter].
  - split; [done|]. by intros (? & []%not_elem_of_nil & _).
  - destruct (strings_Contains name "cil_from_network") eqn:Hname.
    + split; [|done]. intros _. exists name.
      split; [apply list_elem_of_here|done].
    + rewrite IH. split; intros (n & Hn & Hc); exists n.
      * split; [by apply list_elem_of_further|done].
      * split; [|done].
        apply elem_of_cons in Hn as [[= ->]|?]; [congruence|done].
  - rewrite IH. split; intros (n & Hn & Hc); exists n.
    + split; [by apply list_elem_of_further|done].
    + split; [|done]. by apply elem_of_cons in Hn as [?|?].
Qed.

Lemma decryptionLoop_Return {Link} (netlink : Netlink Link)
    (acc : list string) (links : list Link) (names : list string) :
  decryptionLoop netlink acc links = Return names →
  (∀ link, link ∈ links → is_Some (FilterList netlink link))
  ∧ names
    = (acc ++ (AttrsName netlink
                 <$> filter (λ link, isDecryptionInterface netlink link = Some true)
                       links))%list.
Proof.
  revert acc. induction links as [|link links IH]; intros acc.
  - intros [= <-]. split; [by intros ? []%not_elem_of_nil|].
    by rewrite filter_nil, app_nil_r.
  - cbn [decryptionLoop].
    destruct (isDecryptionInterface netlink link) as [itIs|] eqn:His; [|done].
    intros [Hall ->]%IH. split.
    + intros l [->|?]%elem_of_cons; [|by apply Hall].
      unfold isDecryptionInterface in His.
      by destruct (FilterList netlink link).
    + destruct itIs.
      * rewrite filter_cons_True by done. cbn [fmap list_fmap].
        by rewrite <- app_assoc.
      * by rewrite filter_cons_False by congruence.
Qed.

Lemma decryptionLoop_Fatal {Link} (netlink : Netlink Link)
    (acc : list string) (links : list Link) (f : fatal) :
  decryptionLoop netlink acc links = Fatal f ↔
  ∃ before link after,
    links = (before ++ link :: after)%list
    ∧ (∀ l, l ∈ before → is_Some (FilterList netlink l))
    ∧ FilterList netlink link = None
    ∧ f = FailedListBPFPrograms (AttrsName netlink link).
Proof.
  revert acc. induction links as [|link links IH]; intros acc.
  - split; [done|]. intros (before & l & after & Heq & _).
    by destruct before.
  - cbn [decryptionLoop]. unfold isDecryptionInterface.
    destruct (FilterList netlink link) as [filters|] eqn:Hfl.
    + rewrite IH. split.
      * intros (before & l & after & -> & Hbefore & Hl & ->).
        exists (link :: before), l, after. split; [done|].
        split; [|done]. intros l' [->|?]%elem_of_cons; [by eexists|].
        by apply Hbefore.
      * intros (before & l & after & Heq & Hbefore & Hl & ->).
        destruct before as [|b before].
        -- injection Heq as -> _. congruence.
        -- injection Heq as -> ->. exists before, l, after.
           split; [done|]. split; [|done].
           intros l' ?. by apply Hbefore, list_elem_of_further.
    + split.
      * intros [= <-]. exists [], link, links.
        split; [done|]. split; [by intros ? []%not_elem_of_nil|done].
      * intros (before & l & after & Heq & Hbefore & Hl & ->).
        destruct before as [|b before].
        -- by injection Heq as -> _.
        -- injection Heq as Hb _. subst b.
           destruct (Hbefore link (list_elem_of_here _ _)). congruence.
Qed.

(** X20.  [isDecryptionInterface] says yes for a link exactly when the
    filters listed for it include a BPF filter whose name contains
    [cil_from_network]; and when [getDecryptionInterfaces] returns, the
    filters of every link could be listed, and the names returned are those
    of the links for which [isDecryptionInterface] says yes, in the order
    of the link list. *)
Theorem getDecryptionInterfaces_lists {Link} (netlink : Netlink Link) :
  (∀ link,
     isDecryptionInterface netlink link = Some true
     ↔ ∃ filters name pre post,
         FilterList netlink link = Some filters
         ∧ BpfFilter name ∈ filters
         ∧ name = (pre ++ "cil_from_network" ++ post)%string)
  ∧ (∀ names,
       getDecryptionInterfaces netlink = Return names →
       ∃ links,
         LinkList netlink = Some links
         ∧ (∀ link, link ∈ links → is_Some (FilterList netlink link))
         ∧ names
           = AttrsName netlink
               <$> filter (λ link, isDecryptionInterface netlink link = Some true)
                     links).
Proof.
  split.
  - intros link. unfold isDecryptionInterface.
    destruct (FilterList netlink link) as [filters|].
    + split.
      * intros [= Hhas]. apply hasDecryptionFilter_spec in Hhas
          as (name & Hin & (pre & post & Hname)%strings_Contains_spec).
        by exists filters, name, pre, post.
      * intros (fs & name & pre & post & [= <-] & Hin & Hname).
        f_equal. apply hasDecryptionFilter_spec. exists name.
        split; [done|]. apply strings_Contains_spec. by exists pre, post.
    + split; [done|]. by intros (? & ? & ? & ? & ? & _).
  - intros names. unfold getDecryptionInterfaces.
    destruct (LinkList netlink) as [links|]; [|done].
    intros [Hall ->]%decryptionLoop_Return. by exists links.
Qed.

Lemma getDecryptionInterfaces_lists_witness :
  ∃ links,
    LinkList {| LinkList := Some ["lo"; "eth0"; "cilium_host"];
                FilterList := λ link,
                  Some (if (link =? "eth0")%string
                        then [OtherFilter;
                              BpfFilter "bpf_network.o:[cil_from_network]"]
                        else [BpfFilter "bpf_host.o:[cil_to_host]"]);
                AttrsName := λ link, link |} = Some links
    ∧ ["eth0"]
      = filter (λ link, link = "eth0") (links : list string).
Proof.
  destruct (proj2 (getDecryptionInterfaces_lists
                     {| LinkList := Some ["lo"; "eth0"; "cilium_host"];
                        FilterList := λ link,
                          Some (if (link =? "eth0")%string
                                then [OtherFilter;
                                      BpfFilter "bpf_network.o:[cil_from_network]"]
                                else [BpfFilter "bpf_host.o:[cil_to_host]"]);
                        AttrsName := λ link, link |})
              ["eth0"] eq_refl) as (links & Hlinks & _ & _).
  exists links. split; [exact Hlinks|].
  injection Hlinks as <-. reflexivity.
Defined.

(** X21.  [getDecryptionInterfaces] ends in [Fatalf] exactly when the links
    cannot be listed, or the filters of some link cannot; in that case it
    names the first such link of the list, whatever the filters of the
    links after it. *)
Theorem getDecryptionInterfaces_fatal {Link} (netlink : Netlink Link)
    (f : fatal) :
  getDecryptionInterfaces netlink = Fatal f ↔
  (LinkList netlink = None ∧ f = FailedListInterfaces)
  ∨ ∃ before link after,
      LinkList netlink = Some (before ++ link :: after)%list
      ∧ (∀ l, l ∈ before → is_Some (FilterList netlink l))
      ∧ FilterList netlink link = None
      ∧ f = FailedListBPFPrograms (AttrsName netlink link).
Proof.
  unfold getDecryptionInterfaces.
  destruct (LinkList netlink) as [links|].
  - rewrite decryptionLoop_Fatal. split.
    + intros (before & link & after & -> & ?). right.
      by exists before, link, after.
    + intros [[? _]|(before & link & after & [= ->] & ?)]; [done|].
      by exists before, link, after.
  - split.
    + intros [= <-]. by left.
    + intros [[_ ->]|(? & ? & ? & ? & _)]; done.
Qed.

End EncryptStatusProperties.
